(** * aws-tag-analyzer: a shallow embedding of [analyze.py]

    The development follows the source file function by function:
    [fetch_resource_tags], [filter_tags], [json_to_csv],
    [generate_summary_csv] and [generate_focused_summary_csv], then
    [load_aws_credentials], [process_environment_tags] and [main].
    Python dictionaries are finite maps, lists are lists, exceptions are
    values of a result type, and the AWS CLI is a script of call
    outcomes that the fetch loop consumes one call at a time.  The run
    of [main] is a state and exception monad over the process
    environment, the report files and the CLI answers still to come. *)

From stdpp Require Import gmap strings list sorting.
From Stdlib Require Import ZArith Ascii.

Local Open Scope Z_scope.
Local Open Scope string_scope.

(** ** Data model *)

(** A tag as the tagging API returns it: [{"Key": ..., "Value": ...}]. *)
Record Tag := mkTag { Key : string; Value : string }.

(** One entry of [ResourceTagMappingList], with the two entries the
    program reads.  [Tags] is optional because the projector and the
    aggregator read it with [resource.get("Tags", [])] while the filter
    reads it with [resource['Tags']]. *)
Record Resource := mkResource {
  ResourceARN : string;
  Tags : option (list Tag)
}.

Global Instance Tag_eq_dec : EqDecision Tag.
Proof. solve_decision. Defined.

Global Instance Resource_eq_dec : EqDecision Resource.
Proof. solve_decision. Defined.

(** [resource.get("Tags", [])] *)
Definition get_Tags (resource : Resource) : list Tag :=
  default [] (Tags resource).

(** Python truthiness of a string-or-[None] value: [None] and [""] are
    falsy. *)
Definition truthy (v : option string) : bool :=
  match v with
  | Some s => negb (String.eqb s "")
  | None => false
  end.

(** [x in xs] on a Python list of strings. *)
Definition py_in (x : string) (xs : list string) : bool :=
  bool_decide (x ∈ xs).

(** Truthiness of a Python list. *)
Definition nonempty {A} (xs : list A) : bool :=
  match xs with
  | [] => false
  | _ :: _ => true
  end.

(** The exceptions the modelled functions can raise. *)
Inductive Exn :=
| RuntimeError        (* raised by the fetch loop when it gives up *)
| JSONDecodeError     (* re-raised from json.loads *)
| KeyError            (* d[k] on a missing key *)
| IndexError          (* xs[i] out of range *)
| TypeError.          (* [x in None] *)

(** A computation that returns or raises. *)
Inductive result (A : Type) :=
| Ok (a : A)
| Err (e : Exn).
Arguments Ok {A} a.
Arguments Err {A} e.

Global Instance result_bind : MBind result := λ A B k r,
  match r with
  | Ok a => k a
  | Err e => Err e
  end.

(** ** fetch_resource_tags *)

Module Fetcher.

(** The parsed body of a successful call.  Both fields are read with
    [response.get], so both may be missing. *)
Record Response := mkResponse {
  ResourceTagMappingList : option (list Resource);
  PaginationToken : option string
}.

(** What one [subprocess.run] gives back to the loop: a non-zero return
    code, or return code 0 with a body on which [json.loads] either
    raises ([None]) or yields the response object. *)
Inductive CallResult :=
| CallFailed
| CallOk (body : option Response).

(** The command line of one call: the region and, when [next_token] is
    truthy, [--starting-token next_token]. *)
Record Request := mkRequest {
  req_region : string;
  starting_token : option string
}.

(** The three local variables of the loop. *)
Record LoopState := mkLoop {
  resources : list Resource;
  next_token : option string;
  retries : Z
}.

Definition init : LoopState :=
  {| resources := []; next_token := None; retries := 0 |}.

Definition default_max_retries : Z := 3.

Definition request (region : string) (st : LoopState) : Request :=
  {| req_region := region;
     starting_token := if truthy (next_token st) then next_token st else None |}.

Inductive Step :=
| Continue (st : LoopState)
| Return (rs : list Resource)
| Raise (e : Exn).

(** One iteration of [while True], given the outcome of its call. *)
Definition loop_body (max_retries : Z) (st : LoopState) (result : CallResult) : Step :=
  match result with
  | CallFailed =>
      let retries' := retries st + 1 in
      if bool_decide (retries' >= max_retries) then Raise RuntimeError
      else Continue {| resources := resources st;
                       next_token := next_token st;
                       retries := retries' |}
  | CallOk None => Raise JSONDecodeError
  | CallOk (Some response) =>
      let resources' :=
        (resources st ++ default [] (ResourceTagMappingList response))%list in
      let next_token' := PaginationToken response in
      if truthy next_token' then
        Continue {| resources := resources';
                    next_token := next_token';
                    retries := retries st |}
      else Return resources'
  end.

(** How the loop stands after a script of call outcomes: it returned,
    it raised, or it is about to issue its next call. *)
Inductive Outcome :=
| Returned (rs : list Resource)
| Raised (e : Exn)
| Pending (st : LoopState).

(** The loop run against a script: the requests issued, in order, and
    the outcome.  Calls after a return or a raise are never made. *)
Fixpoint run (region : string) (max_retries : Z) (st : LoopState)
    (script : list CallResult) : list Request * Outcome :=
  match script with
  | [] => ([], Pending st)
  | result :: script' =>
      match loop_body max_retries st result with
      | Continue st' =>
          let '(reqs, o) := run region max_retries st' script' in
          (request region st :: reqs, o)
      | Return rs => ([request region st], Returned rs)
      | Raise e => ([request region st], Raised e)
      end
  end.

Definition fetch_resource_tags (region : string) (max_retries : Z)
    (script : list CallResult) : list Request * Outcome :=
  run region max_retries init script.

Global Instance CallResult_failed_dec (r : CallResult) : Decision (r = CallFailed).
Proof. destruct r; [left; reflexivity | right; discriminate]. Defined.

(** Number of failed calls in a script. *)
Definition failures (script : list CallResult) : Z :=
  Z.of_nat (length (filter (λ r, r = CallFailed) script)).

(** The records a call contributes to [resources]. *)
Definition page_records (response : Response) : list Resource :=
  default [] (ResourceTagMappingList response).

Definition records (result : CallResult) : list Resource :=
  match result with
  | CallOk (Some response) => page_records response
  | _ => []
  end.

(** A response carrying one page of records and a next cursor. *)
Definition page (rs : list Resource) (token : option string) : Response :=
  {| ResourceTagMappingList := Some rs; PaginationToken := token |}.

End Fetcher.

(** ** filter_tags *)

Module Filter.

(** [filters.get(name, [])] on the parsed focus file. *)
Definition get (filters : gmap string (list string)) (name : string) : list string :=
  default [] (filters !! name).

Section with_filters.
Variable filters : gmap string (list string).

Let include_keys := get filters "include_keys".
Let exclude_keys := get filters "exclude_keys".
Let include_values := get filters "include_values".
Let exclude_values := get filters "exclude_values".

Definition tag_matches (tag : Tag) : bool :=
  let key := Key tag in
  let value := Value tag in
  if nonempty include_keys && negb (py_in key include_keys) then false
  else if nonempty exclude_keys && py_in key exclude_keys then false
  else if nonempty include_values && negb (py_in value include_values) then false
  else if nonempty exclude_values && py_in value exclude_values then false
  else true.

(** The [for resource in tags] loop; [filtered_tags] is the list
    built so far.  [resource['Tags']] raises on a missing entry. *)
Fixpoint filter_loop (tags : list Resource) (filtered_tags : list Resource)
    : result (list Resource) :=
  match tags with
  | [] => Ok filtered_tags
  | resource :: tags' =>
      match Tags resource with
      | None => Err KeyError
      | Some resource_tags =>
          let filtered_resource_tags :=
            filter (λ tag, tag_matches tag) resource_tags in
          if nonempty filtered_resource_tags then
            let filtered_resource :=
              {| ResourceARN := ResourceARN resource;
                 Tags := Some filtered_resource_tags |} in
            filter_loop tags' (filtered_tags ++ [filtered_resource])%list
          else filter_loop tags' filtered_tags
      end
  end.

Definition filter_tags (tags : list Resource) : result (list Resource) :=
  filter_loop tags [].

(** The tags of a resource that pass [tag_matches], in their order. *)
Definition surviving_tags (resource : Resource) : list Tag :=
  filter (λ tag, tag_matches tag) (get_Tags resource).

(** The resources with at least one surviving tag, in their order. *)
Definition kept (tags : list Resource) : list Resource :=
  filter (λ resource, surviving_tags resource ≠ []) tags.

(** A kept resource as it is emitted. *)
Definition restrict (resource : Resource) : Resource :=
  {| ResourceARN := ResourceARN resource;
     Tags := Some (surviving_tags resource) |}.
End with_filters.

End Filter.

(** ** json_to_csv *)

Module Projector.

(** [s.split(sep)] for a one-character separator. *)
Fixpoint split (sep : Ascii.ascii) (s : string) : list string :=
  match s with
  | EmptyString => [""]
  | String c s' =>
      if Ascii.eqb c sep then "" :: split sep s'
      else match split sep s' with
           | segment :: segments => String c segment :: segments
           | [] => [String c ""]
           end
  end.

(** The first loop: the set of every tag key in the input. *)
Definition all_tags (json_data : list Resource) : gset string :=
  foldl (λ acc resource,
           foldl (λ acc tag, acc ∪ {[ Key tag ]}) acc (get_Tags resource))
        ∅ json_data.

(** [sorted(list(all_tags))] *)
Definition sorted_tags (json_data : list Resource) : list string :=
  merge_sort String.le (elements (all_tags json_data)).

Definition csv_header (json_data : list Resource) (focus_key : option string)
    : list string :=
  match focus_key with
  | Some k =>
      if truthy focus_key then ["Resource ARN"; "Resource Type"; k]
      else (["Resource ARN"; "Resource Type"] ++ sorted_tags json_data)%list
  | None => (["Resource ARN"; "Resource Type"] ++ sorted_tags json_data)%list
  end.

(** [resource_arn.split(":")[2]] *)
Definition resource_type (resource_arn : string) : result string :=
  match split ":"%char resource_arn !! 2%nat with
  | Some segment => Ok segment
  | None => Err IndexError
  end.

(** The dictionary [tag_values] of one resource: every column starts at
    ['N/A'], then each tag of the resource whose key is a column
    overwrites its entry, in tag order. *)
Definition tag_values (columns : list string) (resource : Resource)
    : gmap string string :=
  foldl (λ acc tag,
           if bool_decide (is_Some (acc !! Key tag))
           then <[ Key tag := Value tag ]> acc
           else acc)
        (list_to_map ((λ tag, (tag, "N/A")) <$> columns))
        (get_Tags resource).

(** [tag_values.get(focus_key, 'N/A')] *)
Definition resolved_value (columns : list string) (resource : Resource)
    (focus_key : string) : string :=
  default "N/A" (tag_values columns resource !! focus_key).

(** [[tag_values[tag] for tag in sorted_tags]] *)
Fixpoint cells (values : gmap string string) (columns : list string)
    : result (list string) :=
  match columns with
  | [] => Ok []
  | tag :: columns' =>
      match values !! tag with
      | Some v => vs ← cells values columns' ; Ok (v :: vs)
      | None => Err KeyError
      end
  end.

(** The body of the second loop for one resource: [None] is the
    [continue] of focused mode, [Some row] the appended row. *)
Definition row_of (columns : list string) (focus_key : option string)
    (exclude_values : option (list string)) (resource : Resource)
    : result (option (list string)) :=
  let resource_arn := ResourceARN resource in
  ty ← resource_type resource_arn ;
  let row := [resource_arn; ty] in
  let values := tag_values columns resource in
  match focus_key with
  | Some k =>
      if truthy focus_key then
        match exclude_values with
        | None => Err TypeError
        | Some excluded =>
            if py_in (default "N/A" (values !! k)) excluded then Ok None
            else Ok (Some (row ++ [default "N/A" (values !! k)])%list)
        end
      else vs ← cells values columns ; Ok (Some (row ++ vs)%list)
  | None => vs ← cells values columns ; Ok (Some (row ++ vs)%list)
  end.

(** The second loop; [csv_rows] is the list built so far. *)
Fixpoint rows_loop (columns : list string) (focus_key : option string)
    (exclude_values : option (list string)) (json_data : list Resource)
    (csv_rows : list (list string)) : result (list (list string)) :=
  match json_data with
  | [] => Ok csv_rows
  | resource :: json_data' =>
      r ← row_of columns focus_key exclude_values resource ;
      match r with
      | Some row =>
          rows_loop columns focus_key exclude_values json_data'
                    (csv_rows ++ [row])%list
      | None =>
          rows_loop columns focus_key exclude_values json_data' csv_rows
      end
  end.

(** What [json_to_csv] hands to the CSV writer: the header and the
    rows.  An exception leaves nothing written. *)
Definition json_to_csv (json_data : list Resource) (focus_key : option string)
    (exclude_values : option (list string))
    : result (list string * list (list string)) :=
  csv_rows ← rows_loop (sorted_tags json_data) focus_key exclude_values
                       json_data [] ;
  Ok (csv_header json_data focus_key, csv_rows).

(** The value of the last tag of [resource_tags] whose key is [key]. *)
Definition last_value (key : string) (resource_tags : list Tag) : option string :=
  last (Value <$> filter (λ tag, Key tag = key) resource_tags).

(** The value of the first tag of [resource_tags] whose key is [key]:
    the resolution rule "first match wins". *)
Definition first_value (key : string) (resource_tags : list Tag) : option string :=
  head (Value <$> filter (λ tag, Key tag = key) resource_tags).

Definition has_key (key : string) (resource : Resource) : Prop :=
  ∃ tag, tag ∈ get_Tags resource ∧ Key tag = key.

(** An ARN with at least three colon-delimited segments. *)
Definition well_formed_arn (resource_arn : string) : Prop :=
  (3 ≤ length (split ":" resource_arn))%nat.

Global Instance well_formed_arn_dec resource_arn :
  Decision (well_formed_arn resource_arn).
Proof. unfold well_formed_arn. apply _. Defined.

(** The type column of a resource with a well-formed ARN. *)
Definition type_of (resource : Resource) : string :=
  default "" (split ":" (ResourceARN resource) !! 2%nat).

(** The row of a resource in full mode. *)
Definition full_row (columns : list string) (resource : Resource) : list string :=
  ([ResourceARN resource; type_of resource]
     ++ (resolved_value columns resource <$> columns))%list.

(** The row of a resource in focused mode. *)
Definition focused_row (columns : list string) (focus_key : string)
    (resource : Resource) : list string :=
  [ResourceARN resource; type_of resource;
   resolved_value columns resource focus_key].

End Projector.

(** ** generate_summary_csv and generate_focused_summary_csv *)

Module Aggregator.

(** [tag_data]: environment name to fetched resources, a dictionary
    read in insertion order through [.items()] and [.keys()]; its keys
    are distinct. *)
Definition env_names (tag_data : list (string * list Resource)) : list string :=
  tag_data.*1.

(** *** Presence/value summary *)

(** [all_tags[key][env].add(value)] on
    [defaultdict(lambda: defaultdict(set))]. *)
Definition add_value (all_tags : gmap string (gmap string (gset string)))
    (key env value : string) : gmap string (gmap string (gset string)) :=
  let envs := default ∅ (all_tags !! key) in
  let values := default ∅ (envs !! env) in
  <[ key := <[ env := values ∪ {[ value ]} ]> envs ]> all_tags.

(** The three nested loops that fill [all_tags]. *)
Definition collect (tag_data : list (string * list Resource))
    : gmap string (gmap string (gset string)) :=
  foldl (λ acc item,
           foldl (λ acc resource,
                    foldl (λ acc tag, add_value acc (Key tag) item.1 (Value tag))
                          acc (get_Tags resource))
                 acc item.2)
        ∅ tag_data.

(** An entry of a column of [summary_data]: a string, or the list of
    possible values (built from a set, so without order). *)
Inductive Cell :=
| Text (s : string)
| ValueSet (vs : gset string).

(** [summary_data[name].append(cell)]; every name appended to below is
    a key of the dictionary. *)
Definition append (summary_data : gmap string (list Cell)) (name : string)
    (cell : Cell) : gmap string (list Cell) :=
  alter (λ column, column ++ [cell])%list name summary_data.

(** [{"Tag Key": [], **{env: [] for env in tag_data.keys()},
      "Possible Values": []}] *)
Definition empty_summary (envs : list string) : gmap string (list Cell) :=
  <[ "Possible Values" := [] ]>
    (foldl (λ acc env, <[ env := [] ]> acc) {[ "Tag Key" := [] ]} envs).

(** ["yes" if env in envs else "no"] *)
Definition presence (envs : gmap string (gset string)) (env : string) : Cell :=
  Text (if bool_decide (is_Some (envs !! env)) then "yes" else "no").

(** [list(set(value for values in envs.values() for value in values))] *)
Definition possible_values (envs : gmap string (gset string)) : gset string :=
  ⋃ (map_to_list envs).*2.

(** One iteration of [for tag, envs in all_tags.items()]. *)
Definition summary_step (names : list string)
    (summary_data : gmap string (list Cell))
    (item : string * gmap string (gset string)) : gmap string (list Cell) :=
  let '(tag, envs) := item in
  let d1 := append summary_data "Tag Key" (Text tag) in
  let d2 := foldl (λ d env, append d env (presence envs env)) d1 names in
  append d2 "Possible Values" (ValueSet (possible_values envs)).

(** The columns handed to [pd.DataFrame]; row [i] of the CSV is entry
    [i] of every column.  The keys of [all_tags] are visited in the
    order of [map_to_list]. *)
Definition generate_summary_csv (tag_data : list (string * list Resource))
    : gmap string (list Cell) :=
  foldl (summary_step (env_names tag_data))
        (empty_summary (env_names tag_data))
        (map_to_list (collect tag_data)).

(** *** Focused coverage summary *)

(** [sep.join(xs)] *)
Fixpoint join (sep : string) (xs : list string) : string :=
  match xs with
  | [] => ""
  | [x] => x
  | x :: xs' => x +:+ sep +:+ join sep xs'
  end.

Section with_filters.
Variable filters : gmap string (list string).

Let include_keys : gset string := list_to_set (Filter.get filters "include_keys").
Let exclude_keys : gset string := list_to_set (Filter.get filters "exclude_keys").
Let include_values : gset string := list_to_set (Filter.get filters "include_values").
Let exclude_values : gset string := list_to_set (Filter.get filters "exclude_values").

(** The condition of the [if] inside the tag loop. *)
Definition focus_match (tag : Tag) : bool :=
  let key := Key tag in
  let value := Value tag in
  (bool_decide (key ∈ include_keys) || bool_decide (value ∈ include_values))
  && (negb (bool_decide (key ∈ exclude_keys))
      && negb (bool_decide (value ∈ exclude_values))).

(** The tag loop with its [break]. *)
Fixpoint has_focused_tag (resource_tags : list Tag) : bool :=
  match resource_tags with
  | [] => false
  | tag :: resource_tags' =>
      if focus_match tag then true else has_focused_tag resource_tags'
  end.

(** The resource loop: [(focused_resources, missing_resources)]. *)
Definition count_resources (tags : list Resource) : nat * nat :=
  foldl (λ counts resource,
           if has_focused_tag (get_Tags resource)
           then (counts.1 + 1, counts.2)%nat
           else (counts.1, counts.2 + 1)%nat)
        (0, 0)%nat tags.

(** The eight columns of [summary_data]. *)
Record FocusedSummary := mkFocused {
  Environment : list string;
  Focused_Tag_Key : list string;
  Focused_Tag_Value : list string;
  Excluded_Tag_Key : list string;
  Excluded_Tag_Value : list string;
  Total_Resources : list nat;
  Resources_with_Focused_Tags : list nat;
  Resources_Missing_Focused_Tags : list nat
}.

Definition empty_focused : FocusedSummary :=
  mkFocused [] [] [] [] [] [] [] [].

(** One iteration of [for env, tags in tag_data.items()]. *)
Definition focused_step (summary_data : FocusedSummary)
    (item : string * list Resource) : FocusedSummary :=
  let '(env, tags) := item in
  let total_resources := length tags in
  let '(focused_resources, missing_resources) := count_resources tags in
  {| Environment := Environment summary_data ++ [env];
     Focused_Tag_Key :=
       Focused_Tag_Key summary_data ++ [join ", " (elements include_keys)];
     Focused_Tag_Value :=
       Focused_Tag_Value summary_data ++ [join ", " (elements include_values)];
     Excluded_Tag_Key :=
       Excluded_Tag_Key summary_data ++ [join ", " (elements exclude_keys)];
     Excluded_Tag_Value :=
       Excluded_Tag_Value summary_data ++ [join ", " (elements exclude_values)];
     Total_Resources := Total_Resources summary_data ++ [total_resources];
     Resources_with_Focused_Tags :=
       Resources_with_Focused_Tags summary_data ++ [focused_resources];
     Resources_Missing_Focused_Tags :=
       Resources_Missing_Focused_Tags summary_data ++ [missing_resources] |}%list.

Definition generate_focused_summary_csv
    (tag_data : list (string * list Resource)) : FocusedSummary :=
  foldl focused_step empty_focused tag_data.
End with_filters.

(** A tag with key [key] occurs on a resource of environment [env]. *)
Definition key_in_env (tag_data : list (string * list Resource))
    (key env : string) : Prop :=
  ∃ tags resource tag,
    (env, tags) ∈ tag_data ∧ resource ∈ tags ∧
    tag ∈ get_Tags resource ∧ Key tag = key.

(** [env in all_tags[key]] for a key of [all_tags]. *)
Definition observed (all_tags : gmap string (gmap string (gset string)))
    (key env : string) : Prop :=
  ∃ envs, all_tags !! key = Some envs ∧ is_Some (envs !! env).

(** The entry that one item of [all_tags] adds to column [name]. *)
Definition column_cell (name : string)
    (item : string * gmap string (gset string)) : Cell :=
  if decide (name = "Tag Key") then Text item.1
  else if decide (name = "Possible Values")
       then ValueSet (possible_values item.2)
       else presence item.2 name.

(** The keys of [summary_data]. *)
Definition is_column (names : list string) (name : string) : Prop :=
  name = "Tag Key" ∨ name = "Possible Values" ∨ name ∈ names.

End Aggregator.

(** ** Sample inputs *)

Module Samples.

Definition r1 : Resource :=
  {| ResourceARN := "arn:x:svc:r1";
     Tags := Some [ {| Key := "Team"; Value := "payments" |} ] |}.

Definition r2 : Resource :=
  {| ResourceARN := "arn:x:svc:r2";
     Tags := Some [ {| Key := "Team"; Value := "core" |};
                    {| Key := "Env"; Value := "prod" |} ] |}.

(** A resource without a ["Tags"] entry. *)
Definition untagged : Resource :=
  {| ResourceARN := "arn:x:ec2:r3"; Tags := None |}.

(** The key ["Env"] twice, with different values. *)
Definition two_env_tags : Resource :=
  {| ResourceARN := "arn:x:svc:r4";
     Tags := Some [ {| Key := "Env"; Value := "prod" |};
                    {| Key := "Env"; Value := "dev" |} ] |}.

(** An ARN with a single segment. *)
Definition malformed : Resource :=
  {| ResourceARN := "not-an-arn";
     Tags := Some [ {| Key := "Team"; Value := "core" |} ] |}.

Definition team_core : Tag := {| Key := "Team"; Value := "core" |}.
Definition team_dev : Tag := {| Key := "Team"; Value := "dev" |}.

Definition only_team : gmap string (list string) :=
  {[ "include_keys" := ["Team"] ]}.

Definition team_and_prod : gmap string (list string) :=
  {[ "include_keys" := ["Team"]; "include_values" := ["prod"] ]}.

Definition first_request : Fetcher.Request :=
  {| Fetcher.req_region := "eu-central-1"; Fetcher.starting_token := None |}.

End Samples.

(** ** load_aws_credentials *)

(** Exceptions outside the core: those of the functions above, and
    [ValueError] (unpacking a list of the wrong length, a data frame with
    columns of different lengths). *)
Inductive Failure :=
| Python (e : Exn)
| ValueError.

(** [d[key] = value] on a dictionary kept in insertion order. *)
Fixpoint dict_set {V} (d : list (string * V)) (key : string) (value : V)
    : list (string * V) :=
  match d with
  | [] => [(key, value)]
  | (k, v) :: d' =>
      if decide (k = key) then (k, value) :: d'
      else (k, v) :: dict_set d' key value
  end.

Module Credentials.

(** Python string methods; a character is its code point, below 256. *)

(** [s.startswith(prefix)] *)
Definition startswith (prefix s : string) : bool := String.prefix prefix s.

(** [s.endswith(suffix)] *)
Fixpoint endswith (suffix s : string) : bool :=
  String.eqb suffix s ||
  match s with
  | EmptyString => false
  | String _ s' => endswith suffix s'
  end.

(** [s.replace(old, new)] for a non-empty [old]: occurrences are taken
    from the left and do not overlap; [skip] counts the characters of
    the occurrence being replaced that are still to be passed. *)
Fixpoint replace_from (old new : string) (skip : nat) (s : string) : string :=
  match s with
  | EmptyString => ""
  | String c s' =>
      match skip with
      | S skip' => replace_from old new skip' s'
      | O =>
          if String.prefix old s
          then new +:+ replace_from old new (String.length old - 1) s'
          else String c (replace_from old new 0 s')
      end
  end.

Definition replace (old new s : string) : string := replace_from old new 0 s.

(** [c.isspace()] *)
Definition isspace (c : Ascii.ascii) : bool :=
  let n := nat_of_ascii c in
  ((9 <=? n) && (n <=? 13) || (28 <=? n) && (n <=? 32)
   || (n =? 133) || (n =? 160))%nat.

Fixpoint lstrip (drop : Ascii.ascii → bool) (s : string) : string :=
  match s with
  | EmptyString => ""
  | String c s' => if drop c then lstrip drop s' else s
  end.

Fixpoint rstrip (drop : Ascii.ascii → bool) (s : string) : string :=
  match s with
  | EmptyString => ""
  | String c s' =>
      match rstrip drop s' with
      | EmptyString => if drop c then "" else String c ""
      | kept => String c kept
      end
  end.

(** [s.strip()] is [strip isspace s]; stripping the double quote, as
    the loader does with a value, is [strip (Ascii.eqb quote) s]. *)
Definition strip (drop : Ascii.ascii → bool) (s : string) : string :=
  rstrip drop (lstrip drop s).

(** The double quote character. *)
Definition quote : Ascii.ascii := ascii_of_nat 34.

(** [s.split(sep, 1)] for a one-character [sep]. *)
Fixpoint split_once (sep : Ascii.ascii) (s : string) : list string :=
  match s with
  | EmptyString => [""]
  | String c s' =>
      if Ascii.eqb c sep then [""; s']
      else match split_once sep s' with
           | first :: rest => String c first :: rest
           | [] => [String c ""]
           end
  end.

(** The body of the line loop for a line that starts with "export":
    [key, value = line.replace("export ", "").strip().split('=', 1)],
    then the pair stored in [creds]. *)
Definition assignment (line : string) : Failure + (string * string) :=
  match split_once "="%char (strip isspace (replace "export " "" line)) with
  | [key; value] => inr (key, strip (Ascii.eqb quote) value)
  | _ => inl ValueError
  end.

(** [for line in file], from the dictionary [creds] built so far. *)
Fixpoint read_lines (lines : list string) (creds : gmap string string)
    : Failure + gmap string string :=
  match lines with
  | [] => inr creds
  | line :: lines' =>
      if startswith "export" line then
        match assignment line with
        | inr (key, value) => read_lines lines' (<[ key := value ]> creds)
        | inl e => inl e
        end
      else read_lines lines' creds
  end.

(** [filename.split(".")[0]] *)
Definition env_name (filename : string) : string :=
  default "" (head (Projector.split "."%char filename)).

(** The loop over [os.listdir(credential_dir)]: every entry comes with
    the lines of its file; [credentials] is the dictionary built so
    far. *)
Fixpoint load_loop (entries : list (string * list string))
    (credentials : list (string * gmap string string))
    : Failure + list (string * gmap string string) :=
  match entries with
  | [] => inr credentials
  | (filename, lines) :: entries' =>
      if endswith ".ini" filename then
        match read_lines lines ∅ with
        | inr creds =>
            load_loop entries' (dict_set credentials (env_name filename) creds)
        | inl e => inl e
        end
      else load_loop entries' credentials
  end.

Definition load_aws_credentials (entries : list (string * list string))
    : Failure + list (string * gmap string string) :=
  load_loop entries [].

(** *** Notions used in the statements *)

(** Every character of [s] satisfies [p]. *)
Fixpoint all_chars (p : Ascii.ascii → bool) (s : string) : bool :=
  match s with
  | EmptyString => true
  | String c s' => p c && all_chars p s'
  end.

(** The pairs the line loop stores, in order. *)
Definition assignments (lines : list string) : list (string * string) :=
  omap (λ line,
          if startswith "export" line then
            match assignment line with
            | inr kv => Some kv
            | inl _ => None
            end
          else None) lines.

(** The entries of the directory that the loader opens. *)
Definition ini_entries (entries : list (string * list string))
    : list (string * list string) :=
  filter (λ entry, endswith ".ini" entry.1 = true) entries.

Definition space : Ascii.ascii := " "%char.

End Credentials.

(** ** process_environment_tags and main *)

Module Orchestrator.

(** What a report file holds: the header and rows of a CSV written by
    [json_to_csv], or the columns of a data frame written by [to_csv]. *)
Inductive File :=
| Csv (header : list string) (rows : list (list string))
| SummaryCsv (columns : gmap string (list Aggregator.Cell))
| FocusedSummaryCsv (columns : Aggregator.FocusedSummary).

(** The state the run acts on: the process environment, the files of
    [output_dir] by name, the outcomes of the CLI calls still to come,
    and the CLI calls made so far. *)
Record World := mkWorld {
  environ : gmap string string;
  files : gmap string File;
  upstream : list Fetcher.CallResult;
  issued : list Fetcher.Request
}.

(** A step of the run returns, raises, or waits for a CLI call that the
    script of [upstream] does not hold. *)
Inductive Outcome (A : Type) :=
| Returns (a : A) (w : World)
| Raises (e : Failure) (w : World)
| Blocks (w : World).
Arguments Returns {A} a w.
Arguments Raises {A} e w.
Arguments Blocks {A} w.

Definition M (A : Type) : Type := World → Outcome A.

Global Instance M_ret : MRet M := λ A a w, Returns a w.

Global Instance M_bind : MBind M := λ A B k m w,
  match m w with
  | Returns a w' => k a w'
  | Raises e w' => Raises e w'
  | Blocks w' => Blocks w'
  end.

Definition raise {A} (e : Failure) : M A := λ w, Raises e w.

(** A call of one of the pure functions above. *)
Definition lift {A} (r : result A) : M A := λ w,
  match r with
  | Ok a => Returns a w
  | Err e => Raises (Python e) w
  end.

(** [os.environ[name] = value] *)
Definition setenv (name value : string) : M unit := λ w,
  Returns () {| environ := <[ name := value ]> (environ w);
                files := files w;
                upstream := upstream w;
                issued := issued w |}.

(** [creds[name]] *)
Definition credential (creds : gmap string string) (name : string) : M string :=
  match creds !! name with
  | Some value => mret value
  | None => raise (Python KeyError)
  end.

(** Writing a report file, replacing one of the same name. *)
Definition write_file (name : string) (content : File) : M unit := λ w,
  Returns () {| environ := environ w;
                files := <[ name := content ]> (files w);
                upstream := upstream w;
                issued := issued w |}.

(** [fetch_resource_tags(region)] with the default [max_retries]: the
    loop takes the outcomes of its calls from [upstream]. *)
Definition fetch_resource_tags (region : string) : M (list Resource) := λ w,
  let run := Fetcher.fetch_resource_tags region Fetcher.default_max_retries
                                         (upstream w) in
  let w' := {| environ := environ w;
               files := files w;
               upstream := drop (length run.1) (upstream w);
               issued := (issued w ++ run.1)%list |} in
  match run.2 with
  | Fetcher.Returned rs => Returns rs w'
  | Fetcher.Raised e => Raises (Python e) w'
  | Fetcher.Pending _ => Blocks w'
  end.

(** [json_to_csv(json_data, csv_filename, focus_key, exclude_values)]:
    the file is opened only after the rows are built. *)
Definition json_to_csv (json_data : list Resource) (csv_filename : string)
    (focus_key : option string) (exclude_values : option (list string))
    : M unit :=
  table ← lift (Projector.json_to_csv json_data focus_key exclude_values);
  write_file csv_filename (Csv table.1 table.2).

(** [filters.get('include_keys', [None])[0]] *)
Definition first_include_key (filters : gmap string (list string))
    : M (option string) :=
  match filters !! "include_keys" with
  | None => mret None
  | Some [] => raise (Python IndexError)
  | Some (key :: _) => mret (Some key)
  end.

Definition process_environment_tags (env : string)
    (creds : gmap string string) (filters : gmap string (list string))
    : M unit :=
  access_key ← credential creds "AWS_ACCESS_KEY_ID";
  _ ← setenv "AWS_ACCESS_KEY_ID" access_key;
  secret_key ← credential creds "AWS_SECRET_ACCESS_KEY";
  _ ← setenv "AWS_SECRET_ACCESS_KEY" secret_key;
  session_token ← credential creds "AWS_SESSION_TOKEN";
  _ ← setenv "AWS_SESSION_TOKEN" session_token;
  let region := default "eu-central-1" (creds !! "AWS_REGION") in
  tags ← fetch_resource_tags region;
  _ ← json_to_csv tags (env +:+ "_tags.csv") None None;
  if bool_decide (filters ≠ ∅) then
    focus_key ← first_include_key filters;
    json_to_csv tags (env +:+ "_focused_tags.csv") focus_key
                (Some (Filter.get filters "exclude_values"))
  else mret ().

(** The loop of [main] over [credentials.items()]. *)
Fixpoint main_loop (credentials : list (string * gmap string string))
    (filters : gmap string (list string))
    (tag_data : list (string * list Resource))
    : M (list (string * list Resource)) :=
  match credentials with
  | [] => mret tag_data
  | (env, creds) :: credentials' =>
      _ ← process_environment_tags env creds filters;
      tags ← fetch_resource_tags (default "eu-central-1" (creds !! "AWS_REGION"));
      main_loop credentials' filters (dict_set tag_data env tags)
  end.

(** [pd.DataFrame(summary_data)]: the columns must have one length. *)
Definition data_frame (summary_data : gmap string (list Aggregator.Cell))
    : M (gmap string (list Aggregator.Cell)) :=
  match (map_to_list summary_data).*2 with
  | [] => mret summary_data
  | column :: columns =>
      if bool_decide (Forall (λ other, length other = length column) columns)
      then mret summary_data
      else raise ValueError
  end.

(** [main] from the loop over the environments on: the configuration,
    the credentials and the focus file are already loaded. *)
Definition main (credentials : list (string * gmap string string))
    (filters : gmap string (list string)) : M unit :=
  tag_data ← main_loop credentials filters [];
  summary_df ← data_frame (Aggregator.generate_summary_csv tag_data);
  _ ← write_file "summary_tags.csv" (SummaryCsv summary_df);
  if bool_decide (filters ≠ ∅) then
    write_file "focused_summary_tags.csv"
      (FocusedSummaryCsv (Aggregator.generate_focused_summary_csv filters tag_data))
  else mret ().

(** *** Notions used in the statements *)

(** The three credentials, exported in this order. *)
Definition export_credentials (creds : gmap string string) (w : World) : World :=
  {| environ :=
       <[ "AWS_SESSION_TOKEN" := default "" (creds !! "AWS_SESSION_TOKEN") ]>
         (<[ "AWS_SECRET_ACCESS_KEY" :=
               default "" (creds !! "AWS_SECRET_ACCESS_KEY") ]>
            (<[ "AWS_ACCESS_KEY_ID" := default "" (creds !! "AWS_ACCESS_KEY_ID") ]>
               (environ w)));
     files := files w;
     upstream := upstream w;
     issued := issued w |}.

Definition has_credentials (creds : gmap string string) : Prop :=
  is_Some (creds !! "AWS_ACCESS_KEY_ID") ∧
  is_Some (creds !! "AWS_SECRET_ACCESS_KEY") ∧
  is_Some (creds !! "AWS_SESSION_TOKEN").

Global Instance has_credentials_dec creds : Decision (has_credentials creds).
Proof. unfold has_credentials. apply _. Defined.

(** What follows the export of the credentials. *)
Definition fetch_and_report (env : string) (creds : gmap string string)
    (filters : gmap string (list string)) : M unit :=
  tags ← fetch_resource_tags (default "eu-central-1" (creds !! "AWS_REGION"));
  _ ← json_to_csv tags (env +:+ "_tags.csv") None None;
  if bool_decide (filters ≠ ∅) then
    focus_key ← first_include_key filters;
    json_to_csv tags (env +:+ "_focused_tags.csv") focus_key
                (Some (Filter.get filters "exclude_values"))
  else mret ().

(** The world in which a step ended. *)
Definition final {A} (o : Outcome A) : World :=
  match o with
  | Returns _ w => w
  | Raises _ w => w
  | Blocks w => w
  end.

(** A step that leaves a component of the world as it was. *)
Definition preserves {A X} (f : World → X) (m : M A) : Prop :=
  ∀ w, f (final (m w)) = f w.

(** One environment's share of a run that succeeds: the calls answered
    to the fetch inside [process_environment_tags] and the resources it
    returns, then the same for the fetch in [main]. *)
Record Visit := mkVisit {
  visit_env : string;
  visit_creds : gmap string string;
  first_calls : list Fetcher.CallResult;
  first_tags : list Resource;
  second_calls : list Fetcher.CallResult;
  second_tags : list Resource
}.

(** The fetch returns [tags] at the last call of [calls]. *)
Definition fetch_consumes (region : string) (calls : list Fetcher.CallResult)
    (tags : list Resource) : Prop :=
  (Fetcher.fetch_resource_tags region Fetcher.default_max_retries calls).2
    = Fetcher.Returned tags ∧
  length (Fetcher.fetch_resource_tags region Fetcher.default_max_retries calls).1
    = length calls.

Definition visit_region (v : Visit) : string :=
  default "eu-central-1" (visit_creds v !! "AWS_REGION").

Definition visit_ok (v : Visit) : Prop :=
  has_credentials (visit_creds v) ∧
  fetch_consumes (visit_region v) (first_calls v) (first_tags v) ∧
  fetch_consumes (visit_region v) (second_calls v) (second_tags v) ∧
  Forall (λ resource, Projector.well_formed_arn (ResourceARN resource))
         (first_tags v).

(** The regular report of a visit. *)
Definition regular_report (v : Visit) : File :=
  Csv (["Resource ARN"; "Resource Type"] ++ Projector.sorted_tags (first_tags v))%list
      (Projector.full_row (Projector.sorted_tags (first_tags v)) <$> first_tags v).

Definition visit_calls (v : Visit) : list Fetcher.CallResult :=
  (first_calls v ++ second_calls v)%list.

Definition visit_credentials (visits : list Visit)
    : list (string * gmap string string) :=
  (λ v, (visit_env v, visit_creds v)) <$> visits.

Definition visit_data (visits : list Visit) : list (string * list Resource) :=
  (λ v, (visit_env v, second_tags v)) <$> visits.

End Orchestrator.

(** ** Notions used in the statements *)

(** The calls of a fetch. *)
Module Trace.
Import Fetcher.

(** The script without its failed calls. *)
Definition successes (script : list CallResult) : list CallResult :=
  filter (λ result, result ≠ CallFailed) script.

(** The cursor after a run of calls: the token of the latest successful
    page, or [token] when there is none. *)
Fixpoint cursor_after (token : option string) (calls : list CallResult)
    : option string :=
  match calls with
  | [] => token
  | CallOk (Some response) :: calls' =>
      cursor_after (PaginationToken response) calls'
  | _ :: calls' => cursor_after token calls'
  end.

End Trace.

(** Characters of a string. *)
Module Text.

(** [sep in s] for a one-character [sep]. *)
Fixpoint contains (sep : Ascii.ascii) (s : string) : bool :=
  match s with
  | EmptyString => false
  | String c s' => Ascii.eqb c sep || contains sep s'
  end.

(** [s.count(sep)] for a one-character [sep]. *)
Fixpoint count (sep : Ascii.ascii) (s : string) : nat :=
  match s with
  | EmptyString => 0
  | String c s' => (if Ascii.eqb c sep then 1 else 0) + count sep s'
  end.

End Text.

(** What the summaries are measured against. *)
Module Coverage.
Import Filter Aggregator.

(** [value in all_tags[key][env]] *)
Definition seen (all_tags : gmap string (gmap string (gset string)))
    (key env value : string) : Prop :=
  ∃ envs values,
    all_tags !! key = Some envs ∧ envs !! env = Some values ∧ value ∈ values.

(** A tag [key = value] occurs on a resource of environment [env]. *)
Definition tag_in_env (tag_data : list (string * list Resource))
    (key env value : string) : Prop :=
  ∃ tags resource tag,
    (env, tags) ∈ tag_data ∧ resource ∈ tags ∧
    tag ∈ get_Tags resource ∧ Key tag = key ∧ Value tag = value.

(** Every key of [all_tags] was added for some environment. *)
Definition inhabited_keys (all_tags : gmap string (gmap string (gset string)))
    : Prop :=
  ∀ key envs, all_tags !! key = Some envs → ∃ env, is_Some (envs !! env).

(** A resource with at least one tag that passes the focus test. *)
Definition focused (filters : gmap string (list string)) (resource : Resource)
    : Prop :=
  Exists (λ tag, focus_match filters tag = true) (get_Tags resource).

Global Instance focused_dec filters resource : Decision (focused filters resource).
Proof. unfold focused. apply _. Defined.

End Coverage.

(** ** Sample runs *)

Module Runs.
Import Fetcher Samples.

(** Two pages, each preceded by a failed call. *)
Definition retried : list CallResult :=
  [ CallFailed; CallOk (Some (page [r1] (Some "A")));
    CallFailed; CallOk (Some (page [r2] None)) ].

(** A resource whose tag list is empty. *)
Definition bare : Resource :=
  {| ResourceARN := "arn:x:svc:r5"; Tags := Some [] |}.

Definition two_envs : list (string * list Resource) :=
  [("prod", [r1; r2]); ("dev", [two_env_tags])].

Definition newline : string := String (ascii_of_nat 10) "".

(** A quoted assignment as a credentials file holds it. *)
Definition region_line : string :=
  "export AWS_REGION=" +:+ String Credentials.quote ""
    +:+ "eu-west-1" +:+ String Credentials.quote "" +:+ newline.

Definition directory : list (string * list string) :=
  [ ("prod.ini", ["export A=1"; "# rotated"; "export A=2"]);
    ("notes.txt", ["export B=3"]);
    ("dev.ini", []) ].

Definition full_creds : gmap string string :=
  {[ "AWS_ACCESS_KEY_ID" := "AKIA";
     "AWS_SECRET_ACCESS_KEY" := "secret";
     "AWS_SESSION_TOKEN" := "token" ]}.

Definition partial_creds : gmap string string :=
  {[ "AWS_ACCESS_KEY_ID" := "AKIA" ]}.

(** A world whose CLI answers every fetch with the one page [r1; r2]. *)
Definition one_page_world (fetches : nat) : Orchestrator.World :=
  {| Orchestrator.environ := {[ "HOME" := "/root" ]};
     Orchestrator.files := ∅;
     Orchestrator.upstream :=
       replicate fetches (CallOk (Some (page [r1; r2] None)));
     Orchestrator.issued := [] |}.

Definition prod_visit : Orchestrator.Visit :=
  {| Orchestrator.visit_env := "prod";
     Orchestrator.visit_creds := full_creds;
     Orchestrator.first_calls :=
       [CallOk (Some (page [r1] (Some "A"))); CallOk (Some (page [r2] None))];
     Orchestrator.first_tags := [r1; r2];
     Orchestrator.second_calls :=
       [CallFailed; CallOk (Some (page [r1] None))];
     Orchestrator.second_tags := [r1] |}.

Definition dev_visit : Orchestrator.Visit :=
  {| Orchestrator.visit_env := "dev";
     Orchestrator.visit_creds := <[ "AWS_REGION" := "eu-west-1" ]> full_creds;
     Orchestrator.first_calls := [CallOk (Some (page [two_env_tags] None))];
     Orchestrator.first_tags := [two_env_tags];
     Orchestrator.second_calls := [CallOk (Some (page [two_env_tags] None))];
     Orchestrator.second_tags := [two_env_tags] |}.

End Runs.

(** * Properties *)

(** ** The fetch loop *)

Section fetcher_facts.
Import Fetcher Samples.

Lemma failures_cons result script :
  failures (result :: script) =
  (if decide (result = CallFailed) then 1 else 0) + failures script.
Proof.
  unfold failures. rewrite filter_cons.
  destruct (decide (result = CallFailed)); simpl; lia.
Qed.



Lemma run_cons region max_retries st result script :
  run region max_retries st (result :: script) =
  match loop_body max_retries st result with
  | Continue st' =>
      (request region st :: (run region max_retries st' script).1,
       (run region max_retries st' script).2)
  | Return rs => ([request region st], Returned rs)
  | Raise e => ([request region st], Raised e)
  end.
Proof.
  simpl. destruct (loop_body max_retries st result) as [st'| |]; try reflexivity.
  destruct (run region max_retries st' script); reflexivity.
Qed.



(** While the loop is waiting, [retries] counts every failure so far and
    [resources] holds every record received so far. *)
Lemma run_pending_inv region max_retries pre : ∀ st st',
  (run region max_retries st pre).2 = Pending st' →
  retries st' = retries st + failures pre ∧
  resources st' = (resources st ++ concat (records <$> pre))%list ∧
  length (run region max_retries st pre).1 = length pre.
Proof.
  induction pre as [|result pre IH]; intros st st' Hpre.
  - simpl in Hpre. injection Hpre as ->. simpl.
    rewrite app_nil_r. unfold failures. simpl. repeat split; lia.
  - rewrite run_cons in *.
    destruct (loop_body max_retries st result) as [st1| |] eqn:Hbody;
      try discriminate.
    simpl in Hpre. destruct (IH _ _ Hpre) as (Hr & Hres & Hlen).
    rewrite failures_cons, Hr, Hres. simpl. rewrite Hlen.
    destruct result as [|[response|]]; simpl in Hbody.
    + case_bool_decide; [discriminate|]. injection Hbody as <-. simpl.
      repeat split; lia.
    + destruct (truthy (PaginationToken response)); [|discriminate].
      injection Hbody as <-. simpl.
      rewrite <- app_assoc. repeat split; lia.
    + discriminate.
Qed.

(** A finished run stopped at one call of the script. *)
Lemma run_finished_split region max_retries script : ∀ st,
  (∀ st', (run region max_retries st script).2 ≠ Pending st') →
  ∃ pre result post st',
    script = (pre ++ result :: post)%list ∧
    (run region max_retries st pre).2 = Pending st' ∧
    run region max_retries st script =
      ((run region max_retries st pre).1 ++ [request region st'],
       match loop_body max_retries st' result with
       | Continue st'' => Pending st''
       | Return rs => Returned rs
       | Raise e => Raised e
       end)%list.
Proof.
  induction script as [|result script IH]; intros st Hfin.
  - exfalso. apply (Hfin st). reflexivity.
  - rewrite run_cons in Hfin.
    destruct (loop_body max_retries st result) as [st1| |] eqn:Hbody.
    + destruct (IH st1) as (pre & r & post & st' & -> & Hpre & Hrun).
      { intros st'. apply Hfin. }
      exists (result :: pre), r, post, st'.
      rewrite !run_cons, Hbody. simpl. rewrite Hrun. simpl.
      repeat split; auto.
    + exists [], result, script, st. rewrite run_cons, Hbody. simpl.
      repeat split; auto.
    + exists [], result, script, st. rewrite run_cons, Hbody. simpl.
      repeat split; auto.
Qed.

Lemma run_pages region max_retries pages : ∀ st last,
  Forall (λ response, truthy (PaginationToken response) = true) pages →
  truthy (PaginationToken last) = false →
  run region max_retries st
      ((λ response, CallOk (Some response)) <$> (pages ++ [last])%list) =
  (request region st
     :: ((λ response, mkRequest region (PaginationToken response)) <$> pages),
   Returned (resources st ++ concat (page_records <$> (pages ++ [last])%list)))%list.
Proof.
  induction pages as [|response pages IH]; intros st last Hpages Hlast.
  - simpl. rewrite Hlast. unfold page_records. rewrite app_nil_r. reflexivity.
  - inversion Hpages as [|? ? Htok Hpages']; subst.
    rewrite <- app_comm_cons, fmap_cons, run_cons. simpl. rewrite Htok.
    rewrite IH by assumption. simpl. unfold request at 2. simpl. rewrite Htok.
    rewrite <- app_assoc. reflexivity.
Qed.




(** C2: successful pages are appended in arrival order, a truthy
    pagination token becomes the cursor of the next request, and a page
    without one ends the loop; three pages of sizes 2, 2, 1 give five
    resources in order, and an empty first page without a token gives
    the empty list. *)
Theorem fetch_appends_pages_in_arrival_order region max_retries :
  (∀ pages last,
     Forall (λ response, truthy (PaginationToken response) = true) pages →
     truthy (PaginationToken last) = false →
     fetch_resource_tags region max_retries
       ((λ response, CallOk (Some response)) <$> (pages ++ [last])%list) =
     (mkRequest region None
        :: ((λ response, mkRequest region (PaginationToken response)) <$> pages),
      Returned (concat (page_records <$> (pages ++ [last])%list)))) ∧
  (∀ a b c d e,
     fetch_resource_tags region max_retries
       [CallOk (Some (page [a; b] (Some "A")));
        CallOk (Some (page [c; d] (Some "B")));
        CallOk (Some (page [e] None))] =
     ([mkRequest region None; mkRequest region (Some "A");
       mkRequest region (Some "B")],
      Returned [a; b; c; d; e])) ∧
  fetch_resource_tags region max_retries [CallOk (Some (page [] None))]
    = ([mkRequest region None], Returned []).
Proof.
  split; [|split].
  - intros pages last Hpages Hlast. unfold fetch_resource_tags.
    rewrite run_pages by assumption. reflexivity.
  - intros a b c d e. reflexivity.
  - reflexivity.
Qed.

Lemma fetch_appends_pages_in_arrival_order_witness :
  fetch_resource_tags "eu-central-1" 3
    ((λ response, CallOk (Some response)) <$>
       ([page [r1; r2] (Some "A"); page [untagged] (Some "B")]
          ++ [page [two_env_tags] None])%list) =
  (first_request
     :: ((λ response, mkRequest "eu-central-1" (PaginationToken response)) <$>
           [page [r1; r2] (Some "A"); page [untagged] (Some "B")]),
   Returned (concat (page_records <$>
                       ([page [r1; r2] (Some "A"); page [untagged] (Some "B")]
                          ++ [page [two_env_tags] None])%list))).
Proof.
  apply (proj1 (fetch_appends_pages_in_arrival_order "eu-central-1" 3)).
  - repeat constructor.
  - reflexivity.
Defined.

End fetcher_facts.

(** ** The tag filter *)

Section filter_facts.
Import Filter Samples.

Lemma nonempty_true {A} (xs : list A) : nonempty xs = true ↔ xs ≠ [].
Proof. destruct xs; simpl; split; congruence. Qed.

Lemma filter_loop_ok filters tags : ∀ acc,
  Forall (λ resource, is_Some (Tags resource)) tags →
  filter_loop filters tags acc = Ok (acc ++ (restrict filters <$> kept filters tags))%list.
Proof.
  induction tags as [|resource tags IH]; intros acc Hall.
  - simpl. rewrite app_nil_r. reflexivity.
  - inversion Hall as [|? ? [ts Hts] Hall']; subst. simpl. rewrite Hts.
    unfold kept. rewrite filter_cons.
    assert (Hsurv : surviving_tags filters resource
                    = filter (λ tag, tag_matches filters tag) ts).
    { unfold surviving_tags, get_Tags. rewrite Hts. reflexivity. }
    destruct (nonempty (filter (λ tag, tag_matches filters tag) ts)) eqn:Hne.
    + apply nonempty_true in Hne. rewrite decide_True by (rewrite Hsurv; exact Hne).
      rewrite IH by assumption. rewrite fmap_cons, <- app_assoc. simpl.
      unfold restrict at 2. rewrite Hsurv. reflexivity.
    + rewrite decide_False.
      * apply IH. assumption.
      * rewrite Hsurv. intros Hne'. apply nonempty_true in Hne'. congruence.
Qed.

Lemma filter_loop_err filters tags : ∀ acc,
  Exists (λ resource, Tags resource = None) tags →
  filter_loop filters tags acc = Err KeyError.
Proof.
  induction tags as [|resource tags IH]; intros acc Hex.
  - inversion Hex.
  - simpl. destruct (Tags resource) as [ts|] eqn:Hts; [|reflexivity].
    inversion Hex as [? ? Hnone|? ? Hex']; subst; [congruence|].
    destruct (nonempty _); apply IH; assumption.
Qed.

Lemma all_or_missing (tags : list Resource) :
  Forall (λ resource, is_Some (Tags resource)) tags ∨
  Exists (λ resource, Tags resource = None) tags.
Proof.
  induction tags as [|resource tags [IH|IH]].
  - left. constructor.
  - destruct (Tags resource) as [ts|] eqn:Hts.
    + left. constructor; [rewrite Hts; eauto | assumption].
    + right. left. assumption.
  - right. right. assumption.
Qed.

(** C5: when the filter returns, its output is, in input order, the
    input resources that have at least one tag passing [tag_matches],
    each carrying exactly its passing tags in their original order; so
    no emitted resource has an empty tag list and every emitted tag
    satisfies [tag_matches].  It returns for every input whose resources
    all carry a tag list. *)
Theorem filter_tags_keeps_matching_tags_in_order filters tags :
  (Forall (λ resource, is_Some (Tags resource)) tags →
   ∃ out, filter_tags filters tags = Ok out) ∧
  (∀ out, filter_tags filters tags = Ok out →
     out = restrict filters <$> kept filters tags ∧
     kept filters tags `sublist_of` tags ∧
     (∀ resource, resource ∈ kept filters tags ↔
        resource ∈ tags ∧
        ∃ tag, tag ∈ get_Tags resource ∧ tag_matches filters tag = true) ∧
     Forall2 (λ resource filtered_resource,
                ResourceARN filtered_resource = ResourceARN resource ∧
                ∃ filtered_resource_tags,
                  Tags filtered_resource = Some filtered_resource_tags ∧
                  filtered_resource_tags ≠ [] ∧
                  filtered_resource_tags `sublist_of` get_Tags resource ∧
                  Forall (λ tag, tag_matches filters tag = true)
                         filtered_resource_tags)
             (kept filters tags) out).
Proof.
  unfold filter_tags. split.
  - intros Hall. rewrite filter_loop_ok by assumption. eauto.
  - intros out Hout.
    destruct (all_or_missing tags) as [Hall|Hex];
      [|rewrite filter_loop_err in Hout by assumption; discriminate].
    rewrite filter_loop_ok in Hout by assumption. simpl in Hout.
    injection Hout as <-. split; [reflexivity|].
    split; [apply sublist_filter|]. split.
    + intros resource. unfold kept. rewrite list_elem_of_filter.
      split.
      * intros [Hne Hin]. split; [assumption|].
        destruct (surviving_tags filters resource) as [|tag ts] eqn:Hs; [congruence|].
        exists tag. 
        assert (Htag : tag ∈ surviving_tags filters resource) by (rewrite Hs; left).
        unfold surviving_tags in Htag. apply list_elem_of_filter in Htag as [Hm Hin'].
        split; [assumption|]. apply Is_true_true. assumption.
      * intros [Hin (tag & Htag & Hm)]. split; [|assumption].
        intros Hnil.
        assert (Hin' : tag ∈ surviving_tags filters resource).
        { unfold surviving_tags. apply list_elem_of_filter. split; [|assumption].
          apply Is_true_true. assumption. }
        rewrite Hnil in Hin'. inversion Hin'.
    + apply Forall2_fmap_r, Forall_Forall2_diag, Forall_forall.
      intros resource Hin. apply list_elem_of_filter in Hin as [Hne _].
      split; [reflexivity|]. exists (surviving_tags filters resource).
      repeat split; [assumption|apply sublist_filter|].
      apply Forall_forall. intros tag Htag.
      apply list_elem_of_filter in Htag as [Hm _]. apply Is_true_true. assumption.
Qed.

Lemma filter_tags_keeps_matching_tags_in_order_witness :
  (∃ out, filter_tags only_team [r1; r2] = Ok out) ∧
  kept only_team [r1; r2] `sublist_of` [r1; r2].
Proof.
  destruct (filter_tags_keeps_matching_tags_in_order only_team [r1; r2])
    as [Hreturns Hout].
  split.
  - apply Hreturns. repeat constructor; eexists; reflexivity.
  - apply (proj2 (Hout [r1; {| ResourceARN := "arn:x:svc:r2";
                               Tags := Some [team_core] |}] eq_refl)).
Defined.

End filter_facts.

(** ** The matrix projector *)

Section projector_facts.
Import Projector Samples.

(** The order used by [sorted_tags]: strings are compared character by
    character on their codes, a proper prefix coming first. *)
Lemma string_le_lexicographic :
  (∀ t, String.le "" t) ∧
  (∀ a s, ¬ String.le (String a s) "") ∧
  (∀ a s b t,
     String.le (String a s) (String b t) ↔
     (N_of_ascii a < N_of_ascii b)%N ∨ (a = b ∧ String.le s t)).
Proof.
  unfold String.le, String.leb. split; [|split].
  - intros []; exact I.
  - intros a s H. exact H.
  - intros a s b t. simpl. unfold Ascii.compare.
    destruct (N.compare_spec (N_of_ascii a) (N_of_ascii b)) as [Heq|Hlt|Hgt].
    + assert (a = b) as ->.
      { rewrite <- (ascii_N_embedding a), <- (ascii_N_embedding b), Heq.
        reflexivity. }
      split; [auto|]. intros [Hlt|[_ H]]; [lia|exact H].
    + split; [auto|]. intros _. exact I.
    + split; [intros []|]. intros [Hlt|[-> _]]; lia.
Qed.

Lemma all_tags_fold_tags (resource_tags : list Tag) : ∀ (acc : gset string) key,
  key ∈ foldl (λ acc tag, acc ∪ {[ Key tag ]}) acc resource_tags ↔
  key ∈ acc ∨ ∃ tag, tag ∈ resource_tags ∧ Key tag = key.
Proof.
  induction resource_tags as [|tag ts IH]; intros acc key; simpl.
  - split; [auto|]. intros [?|(tag & Hin & _)]; [assumption|inversion Hin].
  - rewrite IH, elem_of_union, elem_of_singleton. split.
    + intros [[?| ->]|(tag' & Hin & Hk)]; eauto using list_elem_of_here, list_elem_of_further.
    + intros [?|(tag' & Hin & Hk)]; [auto|].
      apply elem_of_cons in Hin as [ ->|Hin]; eauto.
Qed.

Lemma all_tags_fold (json_data : list Resource) : ∀ (acc : gset string) key,
  key ∈ foldl (λ acc resource,
                 foldl (λ acc tag, acc ∪ {[ Key tag ]}) acc (get_Tags resource))
              acc json_data ↔
  key ∈ acc ∨ ∃ resource, resource ∈ json_data ∧ has_key key resource.
Proof.
  induction json_data as [|resource rs IH]; intros acc key; simpl.
  - split; [auto|]. intros [?|(r & Hin & _)]; [assumption|inversion Hin].
  - rewrite IH, all_tags_fold_tags. unfold has_key. split.
    + intros [[?|Hk]|(r & Hin & Hk)]; eauto using list_elem_of_here, list_elem_of_further.
    + intros [?|(r & Hin & Hk)]; [auto|].
      apply elem_of_cons in Hin as [ ->|Hin]; eauto.
Qed.

Lemma elem_of_all_tags json_data key :
  key ∈ all_tags json_data ↔
  ∃ resource, resource ∈ json_data ∧ has_key key resource.
Proof.
  unfold all_tags. rewrite all_tags_fold. split; [|auto].
  intros [Hin|?]; [|assumption]. exfalso. exact (not_elem_of_empty _ Hin).
Qed.

Lemma elem_of_sorted_tags json_data key :
  key ∈ sorted_tags json_data ↔
  ∃ resource, resource ∈ json_data ∧ has_key key resource.
Proof.
  unfold sorted_tags. rewrite merge_sort_Permutation, elem_of_elements.
  apply elem_of_all_tags.
Qed.

Lemma sorted_tags_sorted json_data : StronglySorted String.le (sorted_tags json_data).
Proof. apply StronglySorted_merge_sort; apply _. Qed.

Lemma sorted_tags_NoDup json_data : NoDup (sorted_tags json_data).
Proof.
  unfold sorted_tags. rewrite merge_sort_Permutation. apply NoDup_elements.
Qed.

Lemma last_value_None key resource :
  last_value key (get_Tags resource) = None ↔ ¬ has_key key resource.
Proof.
  unfold last_value, has_key.
  destruct (filter (λ tag, Key tag = key) (get_Tags resource))
    as [|tag ts] eqn:Hf.
  - split; [|reflexivity]. intros _ (tag & Hin & Hk).
    assert (Hin' : tag ∈ filter (λ tag, Key tag = key) (get_Tags resource))
      by (apply list_elem_of_filter; tauto).
    rewrite Hf in Hin'. inversion Hin'.
  - assert (Hin : tag ∈ filter (λ tag, Key tag = key) (get_Tags resource))
      by (rewrite Hf; left).
    apply list_elem_of_filter in Hin. split.
    + rewrite last_None. discriminate.
    + intros Hno. exfalso. apply Hno. exists tag. tauto.
Qed.

Lemma last_value_cons key tag resource_tags :
  last_value key (tag :: resource_tags) =
  if decide (Key tag = key)
  then Some (default (Value tag) (last_value key resource_tags))
  else last_value key resource_tags.
Proof.
  unfold last_value. rewrite filter_cons.
  destruct (decide (Key tag = key)); [|reflexivity].
  rewrite fmap_cons, last_cons. destruct (last _); reflexivity.
Qed.

Lemma tag_values_fold (resource_tags : list Tag) : ∀ (acc : gmap string string) key,
  foldl (λ acc tag,
           if bool_decide (is_Some (acc !! Key tag))
           then <[ Key tag := Value tag ]> acc
           else acc) acc resource_tags !! key =
  (λ v, default v (last_value key resource_tags)) <$> acc !! key.
Proof.
  induction resource_tags as [|tag ts IH]; intros acc key; simpl.
  - destruct (acc !! key); reflexivity.
  - rewrite IH, last_value_cons.
    destruct (decide (Key tag = key)) as [<-|Hne].
    + case_bool_decide as Hsome.
      * rewrite lookup_insert_eq. destruct Hsome as [v ->]. reflexivity.
      * apply eq_None_not_Some in Hsome. rewrite Hsome. reflexivity.
    + case_bool_decide; [rewrite lookup_insert_ne by assumption|]; reflexivity.
Qed.

Lemma lookup_columns (columns : list string) key :
  (list_to_map ((λ tag, (tag, "N/A")) <$> columns) : gmap string string) !! key =
  if decide (key ∈ columns) then Some "N/A" else None.
Proof.
  induction columns as [|c columns IH].
  - rewrite fmap_nil, list_to_map_nil, lookup_empty.
    destruct (decide (key ∈ [])) as [Hin|]; [inversion Hin|reflexivity].
  - rewrite fmap_cons, list_to_map_cons. simpl.
    destruct (decide (c = key)) as [->|Hne].
    + rewrite lookup_insert_eq.
      destruct (decide (key ∈ key :: columns)) as [|Hnin]; [reflexivity|].
      exfalso. apply Hnin. left.
    + rewrite lookup_insert_ne, IH by assumption.
      destruct (decide (key ∈ columns)) as [Hin|Hnin];
        destruct (decide (key ∈ c :: columns)) as [Hin'|Hnin']; try reflexivity.
      * exfalso. apply Hnin'. right. assumption.
      * exfalso. apply elem_of_cons in Hin' as [->|?]; congruence.
Qed.

Lemma lookup_tag_values columns resource key :
  tag_values columns resource !! key =
  if decide (key ∈ columns)
  then Some (default "N/A" (last_value key (get_Tags resource)))
  else None.
Proof.
  unfold tag_values. rewrite tag_values_fold, lookup_columns.
  destruct (decide (key ∈ columns)); reflexivity.
Qed.

Lemma resolved_value_last json_data resource key :
  resource ∈ json_data →
  resolved_value (sorted_tags json_data) resource key =
  default "N/A" (last_value key (get_Tags resource)).
Proof.
  intros Hin. unfold resolved_value. rewrite lookup_tag_values.
  destruct (decide (key ∈ sorted_tags json_data)) as [|Hnin]; [reflexivity|].
  simpl. rewrite (proj2 (last_value_None key resource)); [reflexivity|].
  intros Hkey. apply Hnin, elem_of_sorted_tags. eauto.
Qed.

Lemma cells_ok (values : gmap string string) (columns : list string) :
  (∀ key, key ∈ columns → is_Some (values !! key)) →
  cells values columns = Ok ((λ key, default "N/A" (values !! key)) <$> columns).
Proof.
  induction columns as [|c columns IH]; intros Hall; [reflexivity|].
  simpl. destruct (Hall c) as [v Hv]; [left|]. rewrite Hv, IH.
  - reflexivity.
  - intros key Hin. apply Hall. right. assumption.
Qed.

Lemma cells_tag_values columns resource :
  cells (tag_values columns resource) columns =
  Ok (resolved_value columns resource <$> columns).
Proof.
  apply cells_ok. intros key Hin. rewrite lookup_tag_values, decide_True by assumption.
  eauto.
Qed.

Lemma resource_type_ok resource_arn :
  well_formed_arn resource_arn →
  ∃ segment, split ":" resource_arn !! 2%nat = Some segment ∧
             resource_type resource_arn = Ok segment.
Proof.
  unfold well_formed_arn, resource_type. intros Hlen.
  destruct (lookup_lt_is_Some_2 (split ":" resource_arn) 2) as [segment Hs]; [lia|].
  rewrite Hs. eauto.
Qed.

Lemma resource_type_err resource_arn :
  ¬ well_formed_arn resource_arn →
  resource_type resource_arn = Err IndexError.
Proof.
  unfold well_formed_arn, resource_type. intros Hlen.
  rewrite (lookup_ge_None_2 (split ":" resource_arn) 2); [reflexivity|lia].
Qed.

Lemma row_of_full columns focus_key exclude_values resource :
  truthy focus_key = false →
  well_formed_arn (ResourceARN resource) →
  row_of columns focus_key exclude_values resource
    = Ok (Some (full_row columns resource)).
Proof.
  intros Hfk Hwf. unfold row_of, full_row, type_of.
  destruct (resource_type_ok _ Hwf) as (segment & Hs & ->). rewrite Hs. simpl.
  rewrite cells_tag_values. destruct focus_key; [rewrite Hfk|]; reflexivity.
Qed.

Lemma row_of_focused columns key excluded resource :
  key ≠ "" →
  well_formed_arn (ResourceARN resource) →
  row_of columns (Some key) (Some excluded) resource =
  Ok (if py_in (resolved_value columns resource key) excluded then None
      else Some (focused_row columns key resource)).
Proof.
  intros Hkey Hwf. unfold row_of, focused_row, type_of.
  destruct (resource_type_ok _ Hwf) as (segment & Hs & ->). rewrite Hs. simpl.
  destruct (String.eqb_spec key ""); [contradiction|]. simpl.
  unfold resolved_value. destruct (py_in _ _); reflexivity.
Qed.

Lemma row_of_malformed columns focus_key exclude_values resource :
  ¬ well_formed_arn (ResourceARN resource) →
  row_of columns focus_key exclude_values resource = Err IndexError.
Proof.
  intros Hwf. unfold row_of. rewrite resource_type_err by assumption. reflexivity.
Qed.

Lemma rows_loop_ok columns focus_key exclude_values
    (f : Resource → option (list string)) json_data : ∀ csv_rows,
  Forall (λ resource,
            row_of columns focus_key exclude_values resource = Ok (f resource))
         json_data →
  rows_loop columns focus_key exclude_values json_data csv_rows =
  Ok (csv_rows ++ omap f json_data)%list.
Proof.
  induction json_data as [|resource rs IH]; intros csv_rows Hall; simpl.
  - rewrite app_nil_r. reflexivity.
  - inversion Hall as [|? ? Hrow Hall']; subst. rewrite Hrow. simpl.
    destruct (f resource) as [row|]; rewrite IH by assumption; [|reflexivity].
    rewrite <- app_assoc. reflexivity.
Qed.

Lemma rows_loop_err columns focus_key exclude_values json_data : ∀ csv_rows,
  Exists (λ resource,
            ∃ e, row_of columns focus_key exclude_values resource = Err e)
         json_data →
  ∃ e, rows_loop columns focus_key exclude_values json_data csv_rows = Err e.
Proof.
  induction json_data as [|resource rs IH]; intros csv_rows Hex; simpl.
  - inversion Hex.
  - destruct (row_of columns focus_key exclude_values resource) as [o|e] eqn:Hrow.
    + inversion Hex as [? ? [e He]|? ? Hex']; subst; [congruence|]. simpl.
      destruct o; apply IH; assumption.
    + simpl. eauto.
Qed.

Lemma omap_Some_fmap {A B} (g : A → B) (l : list A) :
  omap (λ x, Some (g x)) l = g <$> l.
Proof. induction l as [|x l IH]; csimpl; [|rewrite IH]; reflexivity. Qed.

Lemma omap_if_filter {A B} (P : A → Prop) `{∀ x, Decision (P x)}
    (c : A → bool) (g : A → B) (l : list A) :
  (∀ x, c x = true ↔ ¬ P x) →
  omap (λ x, if c x then None else Some (g x)) l = g <$> filter P l.
Proof.
  intros Hc. induction l as [|x l IH]; [reflexivity|].
  csimpl. rewrite filter_cons. destruct (c x) eqn:Hcx.
  - apply Hc in Hcx. rewrite decide_False by assumption. exact IH.
  - rewrite decide_True.
    + rewrite fmap_cons, IH. reflexivity.
    + destruct (decide (P x)) as [|Hn]; [assumption|].
      apply Hc in Hn. congruence.
Qed.

Lemma json_to_csv_full json_data focus_key exclude_values :
  truthy focus_key = false →
  Forall (λ resource, well_formed_arn (ResourceARN resource)) json_data →
  json_to_csv json_data focus_key exclude_values =
  Ok ((["Resource ARN"; "Resource Type"] ++ sorted_tags json_data)%list,
      full_row (sorted_tags json_data) <$> json_data).
Proof.
  intros Hfk Hwf. unfold json_to_csv.
  rewrite (rows_loop_ok _ _ _ (λ r, Some (full_row (sorted_tags json_data) r))).
  - simpl. rewrite omap_Some_fmap. unfold csv_header.
    destruct focus_key; [rewrite Hfk|]; reflexivity.
  - eapply Forall_impl; [exact Hwf|]. intros resource Hr. simpl in Hr.
    apply row_of_full; assumption.
Qed.

Lemma json_to_csv_focused json_data key excluded :
  key ≠ "" →
  Forall (λ resource, well_formed_arn (ResourceARN resource)) json_data →
  json_to_csv json_data (Some key) (Some excluded) =
  Ok (["Resource ARN"; "Resource Type"; key],
      focused_row (sorted_tags json_data) key <$>
        filter (λ resource,
                  resolved_value (sorted_tags json_data) resource key ∉ excluded)
               json_data).
Proof.
  intros Hkey Hwf. unfold json_to_csv.
  rewrite (rows_loop_ok _ _ _
    (λ r, if py_in (resolved_value (sorted_tags json_data) r key) excluded
          then None else Some (focused_row (sorted_tags json_data) key r))).
  - simpl.
    rewrite (omap_if_filter
      (λ r, resolved_value (sorted_tags json_data) r key ∉ excluded)).
    + unfold csv_header. simpl. destruct (String.eqb_spec key ""); [contradiction|].
      reflexivity.
    + intros r. unfold py_in. rewrite bool_decide_eq_true. split; [auto|].
      apply dec_stable.
  - eapply Forall_impl; [exact Hwf|]. intros resource Hr. simpl in Hr.
    apply row_of_focused; assumption.
Qed.

Lemma rows_loop_malformed columns focus_key exclude_values json_data : ∀ csv_rows,
  Forall (λ resource,
            well_formed_arn (ResourceARN resource) →
            ∃ o, row_of columns focus_key exclude_values resource = Ok o)
         json_data →
  Exists (λ resource, ¬ well_formed_arn (ResourceARN resource)) json_data →
  rows_loop columns focus_key exclude_values json_data csv_rows = Err IndexError.
Proof.
  induction json_data as [|resource rs IH]; intros csv_rows Hall Hex.
  - inversion Hex.
  - inversion Hall as [|? ? Hrow Hall']; subst. simpl.
    destruct (decide (well_formed_arn (ResourceARN resource))) as [Hwf|Hwf].
    + destruct (Hrow Hwf) as [o ->]. simpl.
      inversion Hex as [|? ? Hex']; subst; [contradiction|].
      destruct o; apply IH; assumption.
    + rewrite row_of_malformed by assumption. reflexivity.
Qed.

Lemma json_to_csv_malformed json_data focus_key exclude_values :
  Exists (λ resource, ¬ well_formed_arn (ResourceARN resource)) json_data →
  (∃ e, json_to_csv json_data focus_key exclude_values = Err e) ∧
  (truthy focus_key = false ∨ is_Some exclude_values →
   json_to_csv json_data focus_key exclude_values = Err IndexError).
Proof.
  intros Hex. unfold json_to_csv. split.
  - destruct (rows_loop_err (sorted_tags json_data) focus_key exclude_values
                json_data []) as [e ->]; [|simpl; eauto].
    eapply Exists_impl; [exact Hex|]. intros resource Hr. simpl in Hr.
    exists IndexError. apply row_of_malformed. assumption.
  - intros Hmode. rewrite rows_loop_malformed; [reflexivity| |assumption].
    apply Forall_forall. intros resource _ Hwf.
    destruct (truthy focus_key) eqn:Hfk.
    + destruct Hmode as [?|[excluded ->]]; [discriminate|].
      destruct focus_key as [key|]; [|discriminate].
      rewrite row_of_focused; eauto.
      intros ->. discriminate.
    + rewrite row_of_full; eauto.
Qed.

Lemma last_value_app key pre tag post :
  Key tag = key →
  Forall (λ later, Key later ≠ key) post →
  last_value key (pre ++ tag :: post) = Some (Value tag).
Proof.
  intros Hkey Hpost. unfold last_value.
  rewrite filter_app, filter_cons, decide_True by assumption.
  replace (filter (λ t, Key t = key) post) with (@nil Tag).
  - rewrite fmap_app, fmap_cons. apply last_snoc.
  - symmetry. induction Hpost as [|t post Ht _ IH]; [reflexivity|].
    rewrite filter_cons, decide_False by assumption. exact IH.
Qed.

Lemma row_of_inv columns focus_key exclude_values resource row :
  row_of columns focus_key exclude_values resource = Ok (Some row) →
  match focus_key with
  | Some key =>
      if truthy focus_key then row = focused_row columns key resource
      else row = full_row columns resource
  | None => row = full_row columns resource
  end.
Proof.
  unfold row_of, resource_type, focused_row, full_row, type_of.
  destruct (split ":" (ResourceARN resource) !! 2%nat) as [segment|];
    [simpl|discriminate].
  rewrite cells_tag_values. simpl.
  destruct focus_key as [key|]; [|intros [= <-]; reflexivity].
  destruct (truthy (Some key)); [|intros [= <-]; reflexivity].
  destruct exclude_values as [excluded|]; [|discriminate].
  destruct (py_in _ _); intros [= <-]; reflexivity.
Qed.

(** C4 (amended): the value placed in a row for a tag key is the value
    of the last tag of the resource with that key (each matching tag
    overwrites the entry of the one before), and "N/A" when the resource
    has no tag with that key; this holds for the single value column of
    focused mode and for every column of full mode. *)
Theorem resolved_value_last_match_wins json_data resource key :
  resource ∈ json_data →
  resolved_value (sorted_tags json_data) resource key
    = default "N/A" (last_value key (get_Tags resource)) ∧
  (∀ pre tag post,
     get_Tags resource = (pre ++ tag :: post)%list →
     Key tag = key →
     Forall (λ later, Key later ≠ key) post →
     resolved_value (sorted_tags json_data) resource key = Value tag) ∧
  (¬ has_key key resource →
   resolved_value (sorted_tags json_data) resource key = "N/A") ∧
  (∀ focus_key exclude_values row,
     row_of (sorted_tags json_data) focus_key exclude_values resource
       = Ok (Some row) →
     if truthy focus_key
     then ∀ focus, focus_key = Some focus →
          row !! 2%nat
            = Some (resolved_value (sorted_tags json_data) resource focus)
     else ∀ i column, sorted_tags json_data !! i = Some column →
          row !! (2 + i)%nat
            = Some (resolved_value (sorted_tags json_data) resource column)).
Proof.
  intros Hin. pose proof (resolved_value_last json_data resource key Hin) as Hres.
  split; [exact Hres|]. split; [|split].
  - intros pre tag post Htags Hkey Hpost.
    rewrite Hres, Htags, last_value_app by assumption. reflexivity.
  - intros Hno. rewrite Hres, (proj2 (last_value_None key resource)) by assumption.
    reflexivity.
  - intros focus_key exclude_values row Hrow. apply row_of_inv in Hrow.
    destruct focus_key as [focus|]; simpl in *.
    + destruct (negb (String.eqb focus "")).
      * intros ? [= <-]. rewrite Hrow. reflexivity.
      * intros i column Hi. rewrite Hrow. unfold full_row. simpl.
        rewrite list_lookup_fmap, Hi. reflexivity.
    + intros i column Hi. rewrite Hrow. unfold full_row. simpl.
      rewrite list_lookup_fmap, Hi. reflexivity.
Qed.

Lemma resolved_value_last_match_wins_witness :
  resolved_value (sorted_tags [two_env_tags]) two_env_tags "Env" = "dev".
Proof.
  apply (proj1 (proj2 (resolved_value_last_match_wins
                         [two_env_tags] two_env_tags "Env" ltac:(left)))
           [ {| Key := "Env"; Value := "prod" |} ]
           {| Key := "Env"; Value := "dev" |} []);
    [reflexivity | reflexivity | constructor].
Defined.

(** C4, as stated, on a resource tagged Env=prod then Env=dev: the first
    match is "prod", the row holds "dev", in both modes. *)
Lemma first_match_does_not_win :
  first_value "Env" (get_Tags two_env_tags) = Some "prod" ∧
  json_to_csv [two_env_tags] None None
    = Ok (["Resource ARN"; "Resource Type"; "Env"],
          [["arn:x:svc:r4"; "svc"; "dev"]]) ∧
  json_to_csv [two_env_tags] (Some "Env") (Some [])
    = Ok (["Resource ARN"; "Resource Type"; "Env"],
          [["arn:x:svc:r4"; "svc"; "dev"]]).
Proof. vm_compute. repeat split. Qed.






(** C9 (amended): for an ARN with fewer than three colon-delimited
    segments the type derivation raises [IndexError]; a projection whose
    input holds such a resource raises and produces no header and no
    row.  For an ARN with three segments or more the type is the third
    segment. *)
Theorem malformed_arn_aborts_projection :
  (∀ resource_arn,
     (length (split ":" resource_arn) < 3)%nat →
     resource_type resource_arn = Err IndexError) ∧
  (∀ resource_arn,
     (3 ≤ length (split ":" resource_arn))%nat →
     ∃ segment, split ":" resource_arn !! 2%nat = Some segment ∧
                resource_type resource_arn = Ok segment) ∧
  (∀ json_data focus_key exclude_values,
     Exists (λ resource, (length (split ":" (ResourceARN resource)) < 3)%nat)
            json_data →
     (∃ e, json_to_csv json_data focus_key exclude_values = Err e) ∧
     (truthy focus_key = false ∨ is_Some exclude_values →
      json_to_csv json_data focus_key exclude_values = Err IndexError)).
Proof.
  split; [|split].
  - intros resource_arn Hlen. apply resource_type_err.
    unfold well_formed_arn. lia.
  - intros resource_arn Hlen. apply resource_type_ok. exact Hlen.
  - intros json_data focus_key exclude_values Hex.
    apply json_to_csv_malformed.
    eapply Exists_impl; [exact Hex|]. intros resource Hr. simpl in Hr.
    unfold well_formed_arn. lia.
Qed.

Lemma resolved_value_no_tags columns resource key :
  get_Tags resource = [] →
  resolved_value columns resource key = "N/A".
Proof.
  intros Hnil. unfold resolved_value. rewrite lookup_tag_values, Hnil.
  destruct (decide (key ∈ columns)); reflexivity.
Qed.

(** C10: in full mode, on well-formed ARNs, the projector emits one row
    per input resource, in input order, each starting with the ARN and
    its third segment; a resource with an empty or missing tag list has
    "N/A" in every tag column. *)
Theorem full_mode_one_row_per_resource json_data focus_key exclude_values :
  truthy focus_key = false →
  Forall (λ resource, well_formed_arn (ResourceARN resource)) json_data →
  ∃ header rows,
    json_to_csv json_data focus_key exclude_values = Ok (header, rows) ∧
    length rows = length json_data ∧
    Forall2 (λ resource row,
               ∃ segment values,
                 split ":" (ResourceARN resource) !! 2%nat = Some segment ∧
                 row = (ResourceARN resource :: segment :: values) ∧
                 length values = length (sorted_tags json_data) ∧
                 (get_Tags resource = [] →
                  Forall (λ value, value = "N/A") values))
            json_data rows.
Proof.
  intros Hfk Hwf. eexists _, _. rewrite json_to_csv_full by assumption.
  split; [reflexivity|]. split; [apply length_fmap|].
  apply Forall2_fmap_r, Forall_Forall2_diag.
  eapply Forall_impl; [exact Hwf|]. intros resource Hr. simpl in Hr.
  destruct (resource_type_ok _ Hr) as (segment & Hs & _).
  exists segment, (resolved_value (sorted_tags json_data) resource <$>
                     sorted_tags json_data).
  split; [exact Hs|]. split; [|split].
  - unfold full_row, type_of. rewrite Hs. reflexivity.
  - apply length_fmap.
  - intros Hnil. apply Forall_fmap, Forall_forall. intros key _. simpl.
    apply resolved_value_no_tags. assumption.
Qed.



Lemma malformed_arn_aborts_projection_witness :
  resource_type "not-an-arn" = Err IndexError ∧
  (∃ segment, split ":" "arn:x:svc:r1" !! 2%nat = Some segment ∧
              resource_type "arn:x:svc:r1" = Ok segment) ∧
  json_to_csv [r1; malformed] None None = Err IndexError.
Proof.
  destruct malformed_arn_aborts_projection as (Hshort & Hlong & Hrun).
  split; [|split].
  - apply Hshort. compute_done.
  - apply Hlong. compute_done.
  - apply Hrun; [|left; reflexivity].
    right. left. compute_done.
Defined.

(** C9, as stated, on a one-segment ARN: the projection of a list holding
    it raises in both modes; no row with type "unknown" is produced. *)
Lemma malformed_arn_not_classified_unknown :
  length (split ":" (ResourceARN malformed)) = 1%nat ∧
  json_to_csv [malformed] None None = Err IndexError ∧
  json_to_csv [r1; malformed] None None = Err IndexError ∧
  json_to_csv [malformed] (Some "Team") (Some []) = Err IndexError ∧
  json_to_csv [malformed] None None
    ≠ Ok (["Resource ARN"; "Resource Type"; "Team"],
          [["not-an-arn"; "unknown"; "core"]]).
Proof. vm_compute. repeat split. discriminate. Qed.

Lemma full_mode_one_row_per_resource_witness :
  ∃ header rows,
    json_to_csv [r1; untagged; r2] None None = Ok (header, rows) ∧
    length rows = length [r1; untagged; r2] ∧
    Forall2 (λ resource row,
               ∃ segment values,
                 split ":" (ResourceARN resource) !! 2%nat = Some segment ∧
                 row = (ResourceARN resource :: segment :: values) ∧
                 length values = length (sorted_tags [r1; untagged; r2]) ∧
                 (get_Tags resource = [] →
                  Forall (λ value, value = "N/A") values))
            [r1; untagged; r2] rows.
Proof.
  apply (full_mode_one_row_per_resource [r1; untagged; r2] None None eq_refl).
  repeat constructor; compute_done.
Defined.

End projector_facts.

(** ** The cross-environment aggregator *)

Section aggregator_facts.
Import Filter Aggregator Samples.

Lemma in_list_to_set (x : string) (xs : list string) :
  bool_decide (x ∈ (list_to_set xs : gset string)) = py_in x xs.
Proof. unfold py_in. apply bool_decide_ext, elem_of_list_to_set. Qed.

Lemma py_in_nil x : py_in x [] = false.
Proof. reflexivity. Qed.

Lemma nonempty_and_in x xs : nonempty xs && py_in x xs = py_in x xs.
Proof. destruct xs; reflexivity. Qed.

Lemma focus_match_formula filters tag :
  focus_match filters tag =
  (py_in (Key tag) (get filters "include_keys")
   || py_in (Value tag) (get filters "include_values"))
  && (negb (py_in (Key tag) (get filters "exclude_keys"))
      && negb (py_in (Value tag) (get filters "exclude_values"))).
Proof. unfold focus_match. rewrite !in_list_to_set. reflexivity. Qed.

Lemma tag_matches_formula filters tag :
  tag_matches filters tag =
  (negb (nonempty (get filters "include_keys"))
   || py_in (Key tag) (get filters "include_keys"))
  && negb (py_in (Key tag) (get filters "exclude_keys"))
  && (negb (nonempty (get filters "include_values"))
      || py_in (Value tag) (get filters "include_values"))
  && negb (py_in (Value tag) (get filters "exclude_values")).
Proof.
  unfold tag_matches.
  rewrite (nonempty_and_in _ (get filters "exclude_keys")),
          (nonempty_and_in _ (get filters "exclude_values")).
  destruct (nonempty (get filters "include_keys")),
           (py_in (Key tag) (get filters "include_keys")),
           (py_in (Key tag) (get filters "exclude_keys")),
           (nonempty (get filters "include_values")),
           (py_in (Value tag) (get filters "include_values")),
           (py_in (Value tag) (get filters "exclude_values")); reflexivity.
Qed.

(** C3 (amended): the per-tag test of the focused coverage summary is
    (key in include_keys or value in include_values) and key not in
    exclude_keys and value not in exclude_values.  It equals
    [tag_matches] when exactly one of the two include lists is empty;
    when both are non-empty every tag accepted by [tag_matches] is
    accepted by it; when both are empty it accepts no tag. *)
Theorem focus_match_agrees_when_one_include_list filters tag :
  focus_match filters tag =
    (py_in (Key tag) (get filters "include_keys")
     || py_in (Value tag) (get filters "include_values"))
    && (negb (py_in (Key tag) (get filters "exclude_keys"))
        && negb (py_in (Value tag) (get filters "exclude_values"))) ∧
  (get filters "include_keys" ≠ [] → get filters "include_values" = [] →
   focus_match filters tag = tag_matches filters tag) ∧
  (get filters "include_keys" = [] → get filters "include_values" ≠ [] →
   focus_match filters tag = tag_matches filters tag) ∧
  (get filters "include_keys" ≠ [] → get filters "include_values" ≠ [] →
   tag_matches filters tag = true → focus_match filters tag = true) ∧
  (get filters "include_keys" = [] → get filters "include_values" = [] →
   focus_match filters tag = false).
Proof.
  rewrite focus_match_formula, tag_matches_formula.
  split; [reflexivity|]. repeat split.
  - intros Hk Hv. rewrite Hv.
    destruct (get filters "include_keys"); [congruence|]. simpl.
    rewrite orb_false_r.
    destruct (py_in _ _), (py_in _ _), (py_in _ _); reflexivity.
  - intros Hk Hv. rewrite Hk.
    destruct (get filters "include_values"); [congruence|]. simpl.
    destruct (py_in _ _), (py_in _ _), (py_in _ _); reflexivity.
  - intros Hk Hv.
    destruct (get filters "include_keys"); [congruence|].
    destruct (get filters "include_values"); [congruence|]. simpl.
    destruct (py_in _ _), (py_in _ _), (py_in _ _), (py_in _ _);
      simpl; congruence.
  - intros -> ->. reflexivity.
Qed.

Lemma focus_match_agrees_when_one_include_list_witness :
  focus_match only_team team_core
    = tag_matches only_team team_core.
Proof.
  apply (proj1 (proj2 (focus_match_agrees_when_one_include_list
                         only_team team_core)));
    [discriminate | reflexivity].
Defined.

(** C3, as stated: with no include list the filter accepts a tag that
    the focused test rejects, and with both include lists given the
    focused test accepts a tag that the filter rejects. *)
Lemma focus_match_differs_from_tag_matches :
  (tag_matches ∅ team_core = true ∧ focus_match ∅ team_core = false) ∧
  (tag_matches team_and_prod
               team_dev = false ∧
   focus_match team_and_prod
               team_dev = true).
Proof. vm_compute. repeat split. Qed.
Lemma observed_add_value all_tags k e v key env :
  observed (add_value all_tags k e v) key env ↔
  (key = k ∧ env = e) ∨ observed all_tags key env.
Proof.
  unfold observed, add_value. split.
  - intros (envs & Hk & Henv).
    destruct (decide (k = key)) as [->|Hne].
    + rewrite lookup_insert_eq in Hk. injection Hk as <-.
      destruct (decide (e = env)) as [->|Hne']; [left; auto|].
      rewrite lookup_insert_ne in Henv by assumption. right.
      destruct (all_tags !! key) as [envs|]; simpl in Henv.
      * eauto.
      * rewrite lookup_empty in Henv. destruct Henv; discriminate.
    + rewrite lookup_insert_ne in Hk by assumption. right. eauto.
  - intros [[-> ->]|(envs & Hk & Henv)].
    + eexists. rewrite lookup_insert_eq. split; [reflexivity|].
      rewrite lookup_insert_eq. eauto.
    + destruct (decide (k = key)) as [->|Hne].
      * eexists. rewrite lookup_insert_eq. split; [reflexivity|].
        rewrite Hk. simpl.
        destruct (decide (e = env)) as [->|Hne'].
        -- rewrite lookup_insert_eq. eauto.
        -- rewrite lookup_insert_ne by assumption. assumption.
      * exists envs. rewrite lookup_insert_ne by assumption. auto.
Qed.

Lemma observed_fold_tags env (resource_tags : list Tag) : ∀ acc key e,
  observed (foldl (λ acc tag, add_value acc (Key tag) env (Value tag))
                  acc resource_tags) key e ↔
  observed acc key e ∨
  (e = env ∧ ∃ tag, tag ∈ resource_tags ∧ Key tag = key).
Proof.
  induction resource_tags as [|tag ts IH]; intros acc key e; simpl.
  - split; [auto|]. intros [?|(_ & tag & Hin & _)]; [assumption|inversion Hin].
  - rewrite IH, observed_add_value. split.
    + intros [[[-> ->]|?]|(-> & tag' & Hin & Hk)]; [right|left|right].
      * split; [reflexivity|]. exists tag. split; [left|reflexivity].
      * assumption.
      * split; [reflexivity|]. exists tag'. split; [right; assumption|assumption].
    + intros [?|(-> & tag' & Hin & Hk)]; [auto|].
      apply elem_of_cons in Hin as [->|Hin]; [auto|].
      right. split; [reflexivity|]. eauto.
Qed.

Lemma observed_fold_resources env (tags : list Resource) : ∀ acc key e,
  observed (foldl (λ acc resource,
                     foldl (λ acc tag, add_value acc (Key tag) env (Value tag))
                           acc (get_Tags resource))
                  acc tags) key e ↔
  observed acc key e ∨
  (e = env ∧ ∃ resource tag,
     resource ∈ tags ∧ tag ∈ get_Tags resource ∧ Key tag = key).
Proof.
  induction tags as [|resource rs IH]; intros acc key e; simpl.
  - split; [auto|]. intros [?|(_ & r & tag & Hin & _)]; [assumption|inversion Hin].
  - rewrite IH, observed_fold_tags. split.
    + intros [[?|(-> & tag & Hin & Hk)]|(-> & r & tag & Hin & Ht & Hk)].
      * auto.
      * right. split; [reflexivity|]. exists resource, tag.
        split; [left|auto].
      * right. split; [reflexivity|]. exists r, tag.
        split; [right; assumption|auto].
    + intros [?|(-> & r & tag & Hin & Ht & Hk)]; [auto|].
      apply elem_of_cons in Hin as [->|Hin]; [left; right; eauto|].
      right. split; [reflexivity|]. eauto.
Qed.

Lemma observed_fold_envs (tag_data : list (string * list Resource)) : ∀ acc key e,
  observed (foldl (λ acc item,
             foldl (λ acc resource,
                      foldl (λ acc tag, add_value acc (Key tag) item.1 (Value tag))
                            acc (get_Tags resource))
                   acc item.2) acc tag_data) key e ↔
  observed acc key e ∨ key_in_env tag_data key e.
Proof.
  unfold key_in_env.
  induction tag_data as [|[env tags] td IH]; intros acc key e; simpl.
  - split; [auto|].
    intros [?|(tags & r & tag & Hin & _)]; [assumption|inversion Hin].
  - rewrite IH, observed_fold_resources. split.
    + intros [[?|(-> & r & tag & Hin & Ht & Hk)]|(tags' & r & tag & Hin & Hr)].
      * auto.
      * right. exists tags, r, tag. split; [left|auto].
      * right. exists tags', r, tag. split; [right; assumption|auto].
    + intros [?|(tags' & r & tag & Hin & Hr & Ht & Hk)]; [auto|].
      apply elem_of_cons in Hin as [[= -> ->]|Hin].
      * left. right. split; [reflexivity|]. eauto.
      * right. exists tags', r, tag. auto.
Qed.

Lemma observed_collect tag_data key env :
  observed (collect tag_data) key env ↔ key_in_env tag_data key env.
Proof.
  unfold collect. rewrite observed_fold_envs. split; [|auto].
  intros [(envs & Hk & _)|?]; [|assumption].
  rewrite lookup_empty in Hk. discriminate.
Qed.
Lemma lookup_append summary_data name cell column :
  append summary_data name cell !! column =
  if decide (name = column)
  then (λ entries, entries ++ [cell])%list <$> summary_data !! column
  else summary_data !! column.
Proof.
  unfold append. destruct (decide (name = column)) as [->|Hne].
  - apply lookup_alter_eq.
  - apply lookup_alter_ne. assumption.
Qed.

Lemma lookup_presence_fold envs (names : list string) : ∀ summary_data column,
  NoDup names →
  foldl (λ d env, append d env (presence envs env)) summary_data names !! column =
  if decide (column ∈ names)
  then (λ entries, entries ++ [presence envs column])%list
         <$> summary_data !! column
  else summary_data !! column.
Proof.
  induction names as [|env names IH]; intros summary_data column Hnd; simpl.
  - destruct (decide (column ∈ [])) as [Hin|]; [inversion Hin|reflexivity].
  - apply NoDup_cons in Hnd as [Hnin Hnd]. rewrite IH, lookup_append by assumption.
    destruct (decide (env = column)) as [->|Hne].
    + rewrite decide_False by assumption.
      destruct (decide (column ∈ column :: names)) as [|Hn]; [reflexivity|].
      exfalso. apply Hn. left.
    + destruct (decide (column ∈ names)) as [Hin|Hn];
        destruct (decide (column ∈ env :: names)) as [Hin'|Hn']; try reflexivity.
      * exfalso. apply Hn'. right. assumption.
      * exfalso. apply elem_of_cons in Hin' as [->|?]; congruence.
Qed.

Lemma lookup_summary_step names summary_data item column :
  NoDup names → "Tag Key" ∉ names → "Possible Values" ∉ names →
  is_column names column →
  summary_step names summary_data item !! column =
  (λ entries, entries ++ [column_cell column item])%list
    <$> summary_data !! column.
Proof.
  intros Hnd Htk Hpv Hcol. destruct item as [tag envs].
  unfold summary_step, column_cell. simpl.
  rewrite lookup_append, lookup_presence_fold, lookup_append by assumption.
  destruct (decide (column = "Tag Key")) as [->|Hne1].
  - rewrite decide_False by discriminate.
    rewrite decide_False by assumption.
    rewrite decide_True by reflexivity. reflexivity.
  - destruct (decide (column = "Possible Values")) as [->|Hne2].
    + rewrite decide_True by reflexivity.
      rewrite decide_False by assumption.
      rewrite decide_False by discriminate. reflexivity.
    + rewrite decide_False by congruence.
      destruct Hcol as [?|[?|Hin]]; [congruence|congruence|].
      rewrite decide_True by assumption.
      rewrite decide_False by congruence. reflexivity.
Qed.

Lemma lookup_summary_fold names items : ∀ summary_data column,
  NoDup names → "Tag Key" ∉ names → "Possible Values" ∉ names →
  is_column names column →
  foldl (summary_step names) summary_data items !! column =
  (λ entries, entries ++ (column_cell column <$> items))%list
    <$> summary_data !! column.
Proof.
  induction items as [|item items IH]; intros summary_data column Hnd Htk Hpv Hcol.
  - simpl. destruct (summary_data !! column); simpl; [|reflexivity].
    rewrite app_nil_r. reflexivity.
  - simpl. rewrite IH, lookup_summary_step by assumption.
    destruct (summary_data !! column); simpl; [|reflexivity].
    rewrite <- app_assoc. reflexivity.
Qed.

Lemma lookup_empty_fold (names : list string) : ∀ (acc : gmap string (list Cell)) column,
  foldl (λ acc env, <[ env := [] ]> acc) acc names !! column =
  if decide (column ∈ names) then Some [] else acc !! column.
Proof.
  induction names as [|env names IH]; intros acc column; simpl.
  - destruct (decide (column ∈ [])) as [Hin|]; [inversion Hin|reflexivity].
  - rewrite IH.
    destruct (decide (column ∈ names)) as [Hin|Hn];
      destruct (decide (column ∈ env :: names)) as [Hin'|Hn']; try reflexivity.
    + exfalso. apply Hn'. right. assumption.
    + apply elem_of_cons in Hin' as [->|?]; [|contradiction].
      apply lookup_insert_eq.
    + rewrite lookup_insert_ne; [reflexivity|].
      intros ->. apply Hn'. left.
Qed.

Lemma lookup_empty_summary names column :
  is_column names column → empty_summary names !! column = Some [].
Proof.
  intros Hcol. unfold empty_summary.
  destruct (decide ("Possible Values" = column)) as [<-|Hne].
  - apply lookup_insert_eq.
  - rewrite lookup_insert_ne, lookup_empty_fold by assumption.
    destruct (decide (column ∈ names)) as [|Hn]; [reflexivity|].
    destruct Hcol as [->|[?|?]]; [|congruence|contradiction].
    apply lookup_singleton_eq.
Qed.

Lemma lookup_generate_summary_csv tag_data column :
  NoDup (env_names tag_data) →
  "Tag Key" ∉ env_names tag_data →
  "Possible Values" ∉ env_names tag_data →
  is_column (env_names tag_data) column →
  generate_summary_csv tag_data !! column =
  Some (column_cell column <$> map_to_list (collect tag_data)).
Proof.
  intros Hnd Htk Hpv Hcol. unfold generate_summary_csv.
  rewrite lookup_summary_fold, lookup_empty_summary by assumption.
  reflexivity.
Qed.

Lemma count_resources_fold filters (tags : list Resource) : ∀ counts : nat * nat,
  let counts' :=
    foldl (λ counts resource,
             if has_focused_tag filters (get_Tags resource)
             then (counts.1 + 1, counts.2)%nat
             else (counts.1, counts.2 + 1)%nat) counts tags in
  (counts'.1 + counts'.2 = counts.1 + counts.2 + length tags)%nat.
Proof.
  induction tags as [|resource rs IH]; intros counts; simpl; [lia|].
  rewrite IH. destruct (has_focused_tag filters (get_Tags resource)); simpl; lia.
Qed.

Lemma count_resources_total filters tags :
  ((count_resources filters tags).1 + (count_resources filters tags).2
   = length tags)%nat.
Proof. unfold count_resources. rewrite count_resources_fold. simpl. lia. Qed.

Lemma focused_fold filters (tag_data : list (string * list Resource)) : ∀ acc,
  Environment (foldl (focused_step filters) acc tag_data)
    = (Environment acc ++ tag_data.*1)%list ∧
  Total_Resources (foldl (focused_step filters) acc tag_data)
    = (Total_Resources acc ++ ((λ item, length item.2) <$> tag_data))%list ∧
  Resources_with_Focused_Tags (foldl (focused_step filters) acc tag_data)
    = (Resources_with_Focused_Tags acc
         ++ ((λ item, (count_resources filters item.2).1) <$> tag_data))%list ∧
  Resources_Missing_Focused_Tags (foldl (focused_step filters) acc tag_data)
    = (Resources_Missing_Focused_Tags acc
         ++ ((λ item, (count_resources filters item.2).2) <$> tag_data))%list.
Proof.
  induction tag_data as [|[env tags] td IH]; intros acc.
  - simpl. rewrite !app_nil_r. auto.
  - cbn [foldl].
    destruct (IH (focused_step filters acc (env, tags))) as (He & Ht & Hw & Hm).
    rewrite He, Ht, Hw, Hm. unfold focused_step.
    destruct (count_resources filters tags) as [focused missing] eqn:Hc.
    rewrite !fmap_cons. cbn [fst snd]. rewrite Hc. simpl.
    rewrite <- !app_assoc. auto.
Qed.

(** C8 (amended): in the focused coverage summary every environment's
    row has matching + missing = total = the number of its resources.
    In the presence/value summary, when no environment is named
    "Tag Key" or "Possible Values", every tag key on a resource of an
    environment is in exactly one row, and that row marks the
    environment "yes". *)
Theorem aggregator_reconciles filters tag_data :
  (∀ i env tags,
     tag_data !! i = Some (env, tags) →
     ∃ matching_focus missing_focus,
       let d := generate_focused_summary_csv filters tag_data in
       Environment d !! i = Some env ∧
       Total_Resources d !! i = Some (length tags) ∧
       Resources_with_Focused_Tags d !! i = Some matching_focus ∧
       Resources_Missing_Focused_Tags d !! i = Some missing_focus ∧
       (matching_focus + missing_focus = length tags)%nat) ∧
  (NoDup (env_names tag_data) →
   "Tag Key" ∉ env_names tag_data →
   "Possible Values" ∉ env_names tag_data →
   ∀ env tags resource tag,
     (env, tags) ∈ tag_data → resource ∈ tags → tag ∈ get_Tags resource →
     ∃ tag_keys marks row,
       generate_summary_csv tag_data !! "Tag Key" = Some tag_keys ∧
       generate_summary_csv tag_data !! env = Some marks ∧
       length marks = length tag_keys ∧
       tag_keys !! row = Some (Text (Key tag)) ∧
       (∀ other, tag_keys !! other = Some (Text (Key tag)) → other = row) ∧
       marks !! row = Some (Text "yes")).
Proof.
  split.
  - intros i env tags Hi.
    destruct (focused_fold filters tag_data empty_focused)
      as (He & Ht & Hw & Hm).
    exists (count_resources filters tags).1, (count_resources filters tags).2.
    unfold generate_focused_summary_csv. simpl. rewrite He, Ht, Hw, Hm. simpl.
    rewrite !list_lookup_fmap, Hi. simpl.
    repeat split; apply count_resources_total.
  - intros Hnd Htk Hpv env tags resource tag Henv Hres Htag.
    assert (Hname : env ∈ env_names tag_data).
    { unfold env_names. apply list_elem_of_fmap. exists (env, tags). auto. }
    assert (Hobs : observed (collect tag_data) (Key tag) env).
    { apply observed_collect. exists tags, resource, tag. auto. }
    destruct Hobs as (envs & Hkey & Hmark).
    apply elem_of_map_to_list, list_elem_of_lookup in Hkey as [row Hrow].
    exists (column_cell "Tag Key" <$> map_to_list (collect tag_data)),
           (column_cell env <$> map_to_list (collect tag_data)), row.
    rewrite !lookup_generate_summary_csv; unfold is_column; auto.
    repeat split.
    + rewrite !length_fmap. reflexivity.
    + rewrite list_lookup_fmap, Hrow. reflexivity.
    + intros other Hother. rewrite list_lookup_fmap in Hother.
      destruct (map_to_list (collect tag_data) !! other) as [[key' envs']|]
        eqn:Ho; [|discriminate].
      simpl in Hother. injection Hother as Hk. unfold column_cell in Hk.
      simpl in Hk. subst key'.
      eapply (NoDup_lookup (map_to_list (collect tag_data)).*1).
      * apply NoDup_fst_map_to_list.
      * rewrite list_lookup_fmap, Ho. reflexivity.
      * rewrite list_lookup_fmap, Hrow. reflexivity.
    + rewrite list_lookup_fmap, Hrow. simpl. unfold column_cell.
      rewrite decide_False by (intros ->; contradiction).
      rewrite decide_False by (intros ->; contradiction).
      unfold presence. simpl. rewrite bool_decide_true by assumption.
      reflexivity.
Qed.

Lemma aggregator_reconciles_witness :
  ∃ tag_keys marks row,
    generate_summary_csv [("prod", [r1; r2]); ("dev", [two_env_tags])]
      !! "Tag Key" = Some tag_keys ∧
    generate_summary_csv [("prod", [r1; r2]); ("dev", [two_env_tags])]
      !! "dev" = Some marks ∧
    length marks = length tag_keys ∧
    tag_keys !! row = Some (Text "Env") ∧
    (∀ other, tag_keys !! other = Some (Text "Env") → other = row) ∧
    marks !! row = Some (Text "yes").
Proof.
  apply (proj2 (aggregator_reconciles
                  ∅ [("prod", [r1; r2]); ("dev", [two_env_tags])])
           ltac:(compute_done) ltac:(compute_done) ltac:(compute_done)
           "dev" [two_env_tags] two_env_tags {| Key := "Env"; Value := "dev" |});
    compute_done.
Defined.

(** C8, as stated, on an environment named "Tag Key": its marks land in
    the key column, which then holds two entries for one tag key while
    "Possible Values" holds one, and the entry of the environment's
    column in the row of "Team" is the key itself, not "yes".  With a
    second environment named "Possible Values" the two columns have the
    same length again, and the row of "Team" marks neither environment
    "yes". *)
Lemma summary_env_named_like_header :
  (generate_summary_csv [("Tag Key", [r1])] !! "Tag Key"
     = Some [Text "Team"; Text "yes"] ∧
   generate_summary_csv [("Tag Key", [r1])] !! "Possible Values"
     = Some [ValueSet {[ "payments" ]}]) ∧
  (generate_summary_csv [("Tag Key", [r1]); ("Possible Values", [])] !! "Tag Key"
     = Some [Text "Team"; Text "yes"] ∧
   generate_summary_csv [("Tag Key", [r1]); ("Possible Values", [])]
       !! "Possible Values"
     = Some [Text "no"; ValueSet {[ "payments" ]}]) ∧
  ¬ ∃ tag_keys marks row,
      generate_summary_csv [("Tag Key", [r1])] !! "Tag Key" = Some tag_keys ∧
      generate_summary_csv [("Tag Key", [r1])] !! "Tag Key" = Some marks ∧
      tag_keys !! row = Some (Text "Team") ∧
      marks !! row = Some (Text "yes").
Proof.
  assert (Hcol : generate_summary_csv [("Tag Key", [r1])] !! "Tag Key"
                 = Some [Text "Team"; Text "yes"]) by (vm_compute; reflexivity).
  split; [split; [exact Hcol|vm_compute; reflexivity]|].
  split; [split; vm_compute; reflexivity|].
  intros (tag_keys & marks & row & Hk & Hm & Hrow & Hmark).
  rewrite Hcol in Hk, Hm. injection Hk as <-. injection Hm as <-.
  rewrite Hrow in Hmark. discriminate.
Qed.

End aggregator_facts.

(** ** More on the fetch loop *)

Section fetcher_runs.
Import Fetcher Trace Samples Runs.

Lemma failures_nonneg script : (0 ≤ failures script)%Z.
Proof. unfold failures. lia. Qed.

Lemma run_without_failures region max_retries script : ∀ st st',
  resources st = resources st' →
  next_token st = next_token st' →
  retries st + failures script < max_retries →
  match (run region max_retries st script).2 with
  | Returned rs =>
      (run region max_retries st' (successes script)).2 = Returned rs
  | Raised e =>
      (run region max_retries st' (successes script)).2 = Raised e
  | Pending s =>
      ∃ s', (run region max_retries st' (successes script)).2 = Pending s' ∧
            resources s = resources s' ∧ next_token s = next_token s'
  end.
Proof.
  induction script as [|result script IH]; intros st st' Hres Htok Hbudget.
  - simpl. exists st'. auto.
  - rewrite failures_cons in Hbudget. unfold successes. rewrite filter_cons.
    pose proof (failures_nonneg script) as Hnn.
    rewrite run_cons.
    destruct result as [|[response|]].
    + rewrite decide_False by (intros H; apply H; reflexivity).
      simpl in Hbudget. simpl loop_body.
      rewrite bool_decide_false by lia. simpl.
      apply IH; simpl; [assumption|assumption|lia].
    + rewrite decide_True by discriminate. rewrite run_cons. simpl in *.
      rewrite <- Hres.
      destruct (truthy (PaginationToken response)); simpl; [|reflexivity].
      apply IH; simpl; [reflexivity|reflexivity|lia].
    + rewrite decide_True by discriminate. rewrite run_cons. reflexivity.
Qed.

(** X1: while the failed calls of a script stay below [max_retries], the
    fetch ignores them: it returns a list exactly when it returns that
    list on the script without its failed calls, and it does not raise
    [RuntimeError]. *)
Theorem retries_below_budget_leave_result region max_retries script :
  failures script < max_retries →
  (∀ rs,
     (fetch_resource_tags region max_retries script).2 = Returned rs ↔
     (fetch_resource_tags region max_retries (successes script)).2
       = Returned rs) ∧
  (fetch_resource_tags region max_retries script).2 ≠ Raised RuntimeError.
Proof.
  intros Hbudget. unfold fetch_resource_tags.
  pose proof (run_without_failures region max_retries script init init
                eq_refl eq_refl) as Hsim.
  simpl in Hsim. specialize (Hsim Hbudget).
  destruct (run region max_retries init script).2 as [rs'|e|s] eqn:Hrun.
  - split; [|discriminate]. intros rs. rewrite Hsim.
    split; intros [= ->]; reflexivity.
  - split.
    + intros rs. rewrite Hsim. split; discriminate.
    + intros [= ->].
      (* a failure-free script never raises RuntimeError *)
      clear Hrun Hbudget. revert Hsim. generalize init.
      induction script as [|result script IH]; intros st; [discriminate|].
      unfold successes. rewrite filter_cons.
      destruct result as [|[response|]].
      * rewrite decide_False by (intros H; apply H; reflexivity). apply IH.
      * rewrite decide_True by discriminate. rewrite run_cons. simpl.
        destruct (truthy (PaginationToken response)); [|discriminate].
        simpl. apply IH.
      * rewrite decide_True by discriminate. rewrite run_cons. discriminate.
  - destruct Hsim as (s' & Hs' & _). split; [|discriminate].
    intros rs. rewrite Hs'. split; discriminate.
Qed.

Lemma retries_below_budget_leave_result_witness :
  (fetch_resource_tags "eu-central-1" 3 retried).2 = Returned [r1; r2] ∧
  (fetch_resource_tags "eu-central-1" 3 retried).2 ≠ Raised RuntimeError.
Proof.
  destruct (retries_below_budget_leave_result "eu-central-1" 3 retried)
    as [Hsame Hnot]; [vm_compute; reflexivity|].
  split; [apply Hsame; reflexivity|exact Hnot].
Defined.

Lemma run_failed_calls region max_retries script : ∀ st,
  (0 ≤ retries st < Z.max 1 max_retries)%Z →
  (retries st
     + failures (take (length (run region max_retries st script).1) script)
   ≤ Z.max 1 max_retries)%Z ∧
  ((run region max_retries st script).2 = Raised RuntimeError ↔
   retries st
     + failures (take (length (run region max_retries st script).1) script)
   = Z.max 1 max_retries).
Proof.
  induction script as [|result script IH]; intros st Hst.
  - simpl. unfold failures. simpl. split; [lia|]. split; [discriminate|lia].
  - rewrite run_cons.
    destruct result as [|[response|]]; simpl loop_body.
    + case_bool_decide as Hge; simpl.
      * rewrite take_0. unfold failures. simpl. split; [lia|].
        split; [lia|reflexivity].
      * rewrite failures_cons. simpl.
        specialize (IH {| resources := resources st;
                          next_token := next_token st;
                          retries := retries st + 1 |}).
        simpl in IH. destruct IH as [IH1 IH2]; [lia|].
        split; [lia|]. rewrite IH2. lia.
    + destruct (truthy (PaginationToken response)); simpl.
      * rewrite failures_cons. simpl.
        specialize (IH {| resources :=
                            (resources st
                               ++ default [] (ResourceTagMappingList response))%list;
                          next_token := PaginationToken response;
                          retries := retries st |}).
        simpl in IH. destruct IH as [IH1 IH2]; [lia|].
        split; [lia|]. rewrite IH2. lia.
      * rewrite take_0. unfold failures. simpl. split; [lia|].
        split; [discriminate|lia].
    + simpl. rewrite take_0. unfold failures. simpl. split; [lia|].
      split; [discriminate|lia].
Qed.

(** X2: among the calls a fetch makes, at most [max(1, max_retries)] fail,
    and the fetch raises [RuntimeError] exactly when that many do; with
    [max_retries] 1, 0 or negative the first failed call raises. *)
Theorem runtime_error_at_last_allowed_failure region max_retries script :
  (failures (take (length (fetch_resource_tags region max_retries script).1)
                  script)
   ≤ Z.max 1 max_retries)%Z ∧
  ((fetch_resource_tags region max_retries script).2 = Raised RuntimeError ↔
   failures (take (length (fetch_resource_tags region max_retries script).1)
                  script)
   = Z.max 1 max_retries).
Proof.
  unfold fetch_resource_tags.
  destruct (run_failed_calls region max_retries script init) as [H1 H2].
  - simpl. lia.
  - simpl in H1, H2. split; [lia|]. rewrite H2. lia.
Qed.

Lemma runtime_error_at_last_allowed_failure_witness :
  (fetch_resource_tags "eu-central-1" 2 retried).2 = Raised RuntimeError.
Proof.
  apply (proj2 (runtime_error_at_last_allowed_failure "eu-central-1" 2 retried)).
  reflexivity.
Defined.

Lemma length_requests region max_retries script : ∀ st,
  (length (run region max_retries st script).1 ≤ length script)%nat.
Proof.
  induction script as [|result script IH]; intros st; [reflexivity|].
  rewrite run_cons. destruct (loop_body max_retries st result) as [st'| |];
    simpl; [|lia|lia].
  specialize (IH st'). lia.
Qed.

(** X3: when the fetch returns, its last call is a successful one whose
    page has no truthy next token, no call is made after it, and the
    result is the records of the pages of all earlier calls, in order,
    followed by the records of that page (failed calls in between add
    nothing and lose nothing). *)
Theorem returned_resources_are_all_pages region max_retries script rs :
  (fetch_resource_tags region max_retries script).2 = Returned rs →
  ∃ pre response post,
    script = (pre ++ CallOk (Some response) :: post)%list ∧
    truthy (PaginationToken response) = false ∧
    rs = (concat (records <$> pre) ++ page_records response)%list ∧
    length (fetch_resource_tags region max_retries script).1
      = S (length pre).
Proof.
  unfold fetch_resource_tags. intros Hret.
  destruct (run_finished_split region max_retries script init)
    as (pre & result & post & st & -> & Hpre & Hrun).
  { intros st'. rewrite Hret. discriminate. }
  destruct (run_pending_inv _ _ _ _ _ Hpre) as (_ & Hres & Hlen).
  simpl in Hres. rewrite Hrun in Hret |- *. simpl in Hret |- *.
  destruct result as [|[response|]]; simpl in Hret.
  - case_bool_decide; discriminate.
  - exists pre, response, post.
    destruct (truthy (PaginationToken response)); [discriminate|].
    injection Hret as <-. rewrite Hres, length_app, Hlen. simpl.
    repeat split. lia.
  - discriminate.
Qed.

Lemma returned_resources_are_all_pages_witness :
  ∃ pre response post,
    retried = (pre ++ CallOk (Some response) :: post)%list ∧
    truthy (PaginationToken response) = false ∧
    [r1; r2] = (concat (records <$> pre) ++ page_records response)%list ∧
    length (fetch_resource_tags "eu-central-1" 3 retried).1 = S (length pre).
Proof.
  apply (returned_resources_are_all_pages "eu-central-1" 3 retried [r1; r2]).
  reflexivity.
Defined.

Lemma requests_carry_cursor region max_retries script : ∀ st i req,
  (next_token st = None ∨ truthy (next_token st) = true) →
  (run region max_retries st script).1 !! i = Some req →
  req = mkRequest region (cursor_after (next_token st) (take i script)).
Proof.
  induction script as [|result script IH]; intros st i req Htok Hreq.
  - simpl in Hreq. rewrite lookup_nil in Hreq. discriminate.
  - rewrite run_cons in Hreq.
    assert (Hfirst : request region st = mkRequest region (next_token st)).
    { unfold request. destruct Htok as [-> | ->]; reflexivity. }
    destruct i as [|i].
    + rewrite take_0. simpl.
      destruct (loop_body max_retries st result); simpl in Hreq;
        injection Hreq as <-; exact Hfirst.
    + destruct result as [|[response|]]; simpl loop_body in Hreq.
      * case_bool_decide; simpl in Hreq; [rewrite lookup_nil in Hreq; discriminate|].
        apply IH in Hreq; [exact Hreq|exact Htok].
      * destruct (truthy (PaginationToken response)) eqn:Ht; simpl in Hreq;
          [|rewrite lookup_nil in Hreq; discriminate].
        apply IH in Hreq; [exact Hreq|right; exact Ht].
      * simpl in Hreq. rewrite lookup_nil in Hreq. discriminate.
Qed.

(** X4: the i-th call of a fetch carries the region and, as starting
    token, the token of the latest successful page among the calls
    before it (none before the first page); a call made after a failed
    one repeats the cursor of the failed one. *)
Theorem every_request_carries_latest_cursor region max_retries script i req :
  (fetch_resource_tags region max_retries script).1 !! i = Some req →
  req = mkRequest region (cursor_after None (take i script)).
Proof.
  unfold fetch_resource_tags. intros Hreq.
  apply (requests_carry_cursor region max_retries script init i req);
    [left; reflexivity|exact Hreq].
Qed.

Lemma every_request_carries_latest_cursor_witness :
  mkRequest "eu-central-1" (Some "A")
    = mkRequest "eu-central-1" (cursor_after None (take 3 retried)).
Proof.
  apply (every_request_carries_latest_cursor "eu-central-1" 3 retried 3).
  reflexivity.
Defined.

End fetcher_runs.

(** ** More on the tag filter *)

Section filter_more.
Import Filter Projector Samples Runs.

Lemma tag_matches_true filters tag :
  tag_matches filters tag = true ↔
  (get filters "include_keys" = [] ∨ Key tag ∈ get filters "include_keys") ∧
  (Key tag ∉ get filters "exclude_keys") ∧
  (get filters "include_values" = [] ∨ Value tag ∈ get filters "include_values") ∧
  Value tag ∉ get filters "exclude_values".
Proof.
  rewrite tag_matches_formula, !andb_true_iff, !orb_true_iff, !negb_true_iff.
  unfold py_in. rewrite !bool_decide_eq_true, !bool_decide_eq_false.
  assert (Hne : ∀ xs : list string, nonempty xs = false ↔ xs = []).
  { intros []; simpl; split; congruence. }
  rewrite !Hne. tauto.
Qed.

Lemma surviving_tags_restrict filters resource :
  surviving_tags filters (restrict filters resource)
    = surviving_tags filters resource.
Proof.
  unfold surviving_tags at 1. unfold restrict, get_Tags. simpl.
  unfold surviving_tags. apply list_filter_filter_l. auto.
Qed.

Lemma kept_restrict filters tags :
  kept filters (restrict filters <$> kept filters tags)
    = restrict filters <$> kept filters tags.
Proof.
  induction tags as [|resource tags IH]; [reflexivity|].
  unfold kept at 2 3. rewrite filter_cons. fold (kept filters tags).
  destruct (decide (surviving_tags filters resource ≠ [])) as [Hne|]; [|exact IH].
  rewrite fmap_cons. unfold kept at 1. rewrite filter_cons.
  rewrite decide_True by (rewrite surviving_tags_restrict; exact Hne).
  f_equal. exact IH.
Qed.

(** X5: filtering is idempotent: the output of [filter_tags] passes
    through [filter_tags] with the same rules unchanged. *)
Theorem filter_tags_idempotent filters tags out :
  filter_tags filters tags = Ok out →
  filter_tags filters out = Ok out.
Proof.
  unfold filter_tags. intros Hout.
  destruct (all_or_missing tags) as [Hall|Hex];
    [|rewrite filter_loop_err in Hout by assumption; discriminate].
  rewrite filter_loop_ok in Hout by assumption. simpl in Hout.
  injection Hout as <-.
  rewrite filter_loop_ok.
  - simpl. rewrite kept_restrict, <- list_fmap_compose. f_equal.
    apply list_fmap_ext. intros _ resource _. simpl.
    unfold restrict at 1. rewrite surviving_tags_restrict. reflexivity.
  - apply Forall_fmap, Forall_forall. intros resource _. simpl. eauto.
Qed.

Lemma filter_tags_idempotent_witness :
  filter_tags only_team [r1; mkResource "arn:x:svc:r2" (Some [team_core])]
    = Ok [r1; mkResource "arn:x:svc:r2" (Some [team_core])].
Proof.
  apply (filter_tags_idempotent only_team [r1; r2; bare]). reflexivity.
Defined.

(** X6: [filter_tags] raises only [KeyError], and raises it exactly when
    some resource has no [Tags] entry, wherever that resource stands in
    the input and whatever the rules are. *)
Theorem filter_tags_raises_on_missing_tags filters tags :
  (∀ e, filter_tags filters tags = Err e ↔
        e = KeyError ∧ Exists (λ resource, Tags resource = None) tags) ∧
  (∀ pre resource post,
     Tags resource = None →
     filter_tags filters (pre ++ resource :: post) = Err KeyError).
Proof.
  unfold filter_tags. split.
  - intros e. split.
    + intros Herr. destruct (all_or_missing tags) as [Hall|Hex].
      * rewrite filter_loop_ok in Herr by assumption. discriminate.
      * rewrite filter_loop_err in Herr by assumption.
        injection Herr as <-. auto.
    + intros [-> Hex]. apply filter_loop_err. assumption.
  - intros pre resource post Hnone. apply filter_loop_err.
    apply Exists_app. right. left. assumption.
Qed.

Lemma filter_tags_raises_on_missing_tags_witness :
  filter_tags only_team ([r1] ++ untagged :: [r2]) = Err KeyError.
Proof.
  apply (proj2 (filter_tags_raises_on_missing_tags only_team [])). reflexivity.
Defined.

(** X7: with no rule in any of the four lists (missing or empty), and
    every resource carrying a [Tags] entry, [filter_tags] keeps every
    resource with at least one tag unchanged and drops exactly the
    resources whose tag list is empty. *)
Theorem filter_tags_without_rules filters tags :
  get filters "include_keys" = [] → get filters "exclude_keys" = [] →
  get filters "include_values" = [] → get filters "exclude_values" = [] →
  Forall (λ resource, is_Some (Tags resource)) tags →
  filter_tags filters tags
    = Ok (filter (λ resource, get_Tags resource ≠ []) tags).
Proof.
  intros Hik Hek Hiv Hev Hall. unfold filter_tags.
  rewrite filter_loop_ok by assumption. simpl. f_equal.
  assert (Hsurv : ∀ resource, surviving_tags filters resource = get_Tags resource).
  { intros resource. unfold surviving_tags.
    induction (get_Tags resource) as [|tag ts IH]; [reflexivity|].
    rewrite filter_cons, decide_True, IH; [reflexivity|].
    apply Is_true_true, tag_matches_true.
    rewrite Hik, Hek, Hiv, Hev. repeat split; auto; apply not_elem_of_nil. }
  induction Hall as [|resource tags [ts Hts] Hall IH]; [reflexivity|].
  unfold kept. rewrite !filter_cons, Hsurv. fold (kept filters tags).
  destruct (decide (get_Tags resource ≠ [])); [|exact IH].
  rewrite fmap_cons, IH. f_equal.
  unfold restrict. rewrite Hsurv. unfold get_Tags. rewrite Hts.
  destruct resource; simpl in *; congruence.
Qed.

Lemma filter_tags_without_rules_witness :
  filter_tags ∅ [r1; bare; r2]
    = Ok (filter (λ resource, get_Tags resource ≠ []) [r1; bare; r2]).
Proof.
  apply (filter_tags_without_rules ∅ [r1; bare; r2]); try reflexivity.
  repeat constructor; compute_done.
Defined.

(** X8: filter then project: every tag column of the filtered data is a
    tag column of the unfiltered data, is not an excluded key, and is an
    included key when [include_keys] is not empty. *)
Theorem columns_after_filter filters tags out key :
  filter_tags filters tags = Ok out →
  key ∈ sorted_tags out →
  key ∈ sorted_tags tags ∧
  (key ∉ get filters "exclude_keys") ∧
  (get filters "include_keys" = [] ∨ key ∈ get filters "include_keys").
Proof.
  unfold filter_tags. intros Hout Hkey.
  destruct (all_or_missing tags) as [Hall|Hex];
    [|rewrite filter_loop_err in Hout by assumption; discriminate].
  rewrite filter_loop_ok in Hout by assumption. simpl in Hout.
  injection Hout as <-.
  apply elem_of_sorted_tags in Hkey as (filtered & Hin & tag & Htag & <-).
  apply list_elem_of_fmap in Hin as (resource & -> & Hin).
  apply list_elem_of_filter in Hin as [_ Hin].
  unfold restrict, get_Tags in Htag. simpl in Htag.
  apply list_elem_of_filter in Htag as [Hm Htag].
  apply Is_true_true, tag_matches_true in Hm. split; [|tauto].
  apply elem_of_sorted_tags. exists resource. split; [assumption|].
  exists tag. auto.
Qed.

Lemma columns_after_filter_witness :
  "Team" ∈ sorted_tags [r1; r2] ∧
  ("Team" ∉ get only_team "exclude_keys") ∧
  (get only_team "include_keys" = [] ∨ "Team" ∈ get only_team "include_keys").
Proof.
  apply (columns_after_filter only_team [r1; r2]
           [r1; mkResource "arn:x:svc:r2" (Some [team_core])]).
  - reflexivity.
  - compute_done.
Defined.

End filter_more.

(** ** More on the matrix projector *)

Section projector_more.
Import Projector Text Samples Runs.

Lemma split_nonempty sep s : ∃ segment segments, split sep s = segment :: segments.
Proof.
  destruct s as [|c s]; simpl; [eauto|].
  destruct (Ascii.eqb c sep); [eauto|].
  destruct (split sep s); eauto.
Qed.

Lemma split_cons sep c s :
  split sep (String c s) =
  if Ascii.eqb c sep then "" :: split sep s
  else match split sep s with
       | segment :: segments => String c segment :: segments
       | [] => [String c ""]
       end.
Proof. reflexivity. Qed.

Lemma join_cons_cons sep x y ys :
  Aggregator.join sep (x :: y :: ys) = x +:+ sep +:+ Aggregator.join sep (y :: ys).
Proof. reflexivity. Qed.

Lemma join_split sep s : Aggregator.join (String sep "") (split sep s) = s.
Proof.
  induction s as [|c s IH]; [reflexivity|].
  rewrite split_cons.
  destruct (split_nonempty sep s) as (segment & segments & Hs).
  rewrite Hs in IH |- *.
  destruct (Ascii.eqb_spec c sep) as [->|Hne].
  - rewrite join_cons_cons, IH. reflexivity.
  - destruct segments as [|y ys].
    + simpl in IH |- *. rewrite IH. reflexivity.
    + rewrite join_cons_cons in IH |- *. simpl. rewrite <- IH. reflexivity.
Qed.

Lemma split_sep_free sep s : contains sep s = false → split sep s = [s].
Proof.
  induction s as [|c s IH]; [reflexivity|]. simpl.
  destruct (Ascii.eqb c sep); [discriminate|]. simpl.
  intros H. rewrite (IH H). reflexivity.
Qed.

Lemma split_app sep s t :
  contains sep s = false →
  split sep (s +:+ String sep t) = s :: split sep t.
Proof.
  induction s as [|c s IH]; simpl.
  - intros _. rewrite Ascii.eqb_refl. reflexivity.
  - destruct (Ascii.eqb c sep); [discriminate|]. simpl.
    intros H. rewrite (IH H). reflexivity.
Qed.

Lemma split_segments_sep_free sep s :
  Forall (λ segment, contains sep segment = false) (split sep s).
Proof.
  induction s as [|c s IH]; [repeat constructor|].
  rewrite split_cons. destruct (Ascii.eqb c sep) eqn:Hc.
  - constructor; [reflexivity|exact IH].
  - destruct (split sep s) as [|segment segments].
    + repeat constructor. simpl. rewrite Hc. reflexivity.
    + inversion IH; subst. constructor; [|assumption].
      simpl. rewrite Hc. assumption.
Qed.

Lemma length_split sep s : length (split sep s) = S (count sep s).
Proof.
  induction s as [|c s IH]; [reflexivity|].
  rewrite split_cons. simpl count. destruct (Ascii.eqb c sep).
  - simpl. rewrite IH. reflexivity.
  - destruct (split sep s); simpl in *; lia.
Qed.

Lemma append_char c t : String c "" +:+ t = String c t.
Proof. reflexivity. Qed.

Lemma split_join sep segments :
  segments ≠ [] →
  Forall (λ segment, contains sep segment = false) segments →
  split sep (Aggregator.join (String sep "") segments) = segments.
Proof.
  intros Hne Hfree. induction Hfree as [|x xs Hx Hxs IH]; [congruence|].
  destruct xs as [|y ys].
  - simpl. apply split_sep_free. assumption.
  - rewrite join_cons_cons, append_char.
    rewrite split_app by assumption. rewrite IH by discriminate. reflexivity.
Qed.

(** X9: [str.split] on a one-character separator, as the projector uses
    it on ARNs, and [str.join] are inverse to each other: joining the
    segments of [s] gives [s] back; the segments are one more than the
    occurrences of the separator and none contains it; and splitting
    the join of separator-free segments gives the segments back. *)
Theorem split_join_round_trip sep :
  (∀ s, Aggregator.join (String sep "") (split sep s) = s) ∧
  (∀ s, length (split sep s) = S (count sep s) ∧
        Forall (λ segment, contains sep segment = false) (split sep s)) ∧
  (∀ segments,
     segments ≠ [] →
     Forall (λ segment, contains sep segment = false) segments →
     split sep (Aggregator.join (String sep "") segments) = segments).
Proof.
  split; [apply join_split|]. split; [|apply split_join].
  intros s. split; [apply length_split|apply split_segments_sep_free].
Qed.

Lemma split_join_round_trip_witness :
  split ":" (Aggregator.join ":" ["arn"; "aws"; ""; "ec2"])
    = ["arn"; "aws"; ""; "ec2"].
Proof.
  apply (proj2 (proj2 (split_join_round_trip ":"))).
  - discriminate.
  - repeat constructor.
Defined.

(** X10: for colon-free [a], [b] and [c], the resource type of [a:b:c] and
    of [a:b:c:rest] is [c], whatever [rest] holds (empty segments,
    further colons), while [a:b] and [a] raise [IndexError]. *)
Theorem resource_type_is_third_segment a b c rest :
  contains ":" a = false → contains ":" b = false → contains ":" c = false →
  resource_type (a +:+ ":" +:+ b +:+ ":" +:+ c) = Ok c ∧
  resource_type (a +:+ ":" +:+ b +:+ ":" +:+ c +:+ ":" +:+ rest) = Ok c ∧
  resource_type (a +:+ ":" +:+ b) = Err IndexError ∧
  resource_type a = Err IndexError.
Proof.
  intros Ha Hb Hc. unfold resource_type. rewrite !append_char.
  repeat split.
  - rewrite !split_app, (split_sep_free _ c) by assumption. reflexivity.
  - rewrite !split_app by assumption. reflexivity.
  - rewrite split_app, (split_sep_free _ b) by assumption. reflexivity.
  - rewrite (split_sep_free _ a) by assumption. reflexivity.
Qed.

Lemma resource_type_is_third_segment_witness :
  resource_type "arn:aws:ec2" = Ok "ec2" ∧
  resource_type "arn:aws:ec2:eu-west-1:42:instance/i-0" = Ok "ec2" ∧
  resource_type "arn:aws" = Err IndexError ∧
  resource_type "arn" = Err IndexError.
Proof.
  apply (resource_type_is_third_segment "arn" "aws" "ec2"
           "eu-west-1:42:instance/i-0"); reflexivity.
Defined.

(** X11: in focused mode with [exclude_values] left at its default [None],
    [json_to_csv] returns only on an empty input (the header alone);
    on any other input the first resource raises [TypeError] from the
    membership test, or [IndexError] if its ARN is malformed, which is
    read first. *)
Theorem focused_mode_needs_exclude_values key resource json_data :
  key ≠ "" →
  json_to_csv [] (Some key) None
    = Ok (["Resource ARN"; "Resource Type"; key], []) ∧
  (well_formed_arn (ResourceARN resource) →
   json_to_csv (resource :: json_data) (Some key) None = Err TypeError) ∧
  (¬ well_formed_arn (ResourceARN resource) →
   json_to_csv (resource :: json_data) (Some key) None = Err IndexError).
Proof.
  intros Hkey.
  assert (Htruthy : truthy (Some key) = true).
  { simpl. destruct (String.eqb_spec key ""); [contradiction|reflexivity]. }
  split; [|split].
  - unfold json_to_csv, csv_header. rewrite Htruthy. reflexivity.
  - intros Hwf. unfold json_to_csv. simpl rows_loop. unfold row_of.
    destruct (resource_type_ok _ Hwf) as (segment & _ & ->).
    cbn [mbind result_bind]. rewrite Htruthy. reflexivity.
  - intros Hwf. unfold json_to_csv. simpl rows_loop.
    rewrite row_of_malformed by assumption. reflexivity.
Qed.

Lemma focused_mode_needs_exclude_values_witness :
  json_to_csv [] (Some "Env") None
    = Ok (["Resource ARN"; "Resource Type"; "Env"], []) ∧
  (well_formed_arn (ResourceARN r1) →
   json_to_csv (r1 :: [malformed]) (Some "Env") None = Err TypeError) ∧
  (¬ well_formed_arn (ResourceARN r1) →
   json_to_csv (r1 :: [malformed]) (Some "Env") None = Err IndexError).
Proof.
  apply (focused_mode_needs_exclude_values "Env" r1 [malformed]). discriminate.
Defined.

(** X12: a focus key that no resource carries: every resource resolves to
    [N/A], so the focused report has a row [arn, type, N/A] for every
    resource, or no row at all when [N/A] is among the excluded values. *)
Theorem focus_key_on_no_resource json_data key excluded :
  key ≠ "" →
  Forall (λ resource, well_formed_arn (ResourceARN resource)) json_data →
  (∀ resource, resource ∈ json_data → ¬ has_key key resource) →
  json_to_csv json_data (Some key) (Some excluded) =
  Ok (["Resource ARN"; "Resource Type"; key],
      if decide ("N/A" ∈ excluded) then []
      else (λ resource, [ResourceARN resource; type_of resource; "N/A"])
             <$> json_data).
Proof.
  intros Hkey Hwf Hno. rewrite json_to_csv_focused by assumption. f_equal. f_equal.
  assert (Hval : ∀ resource, resource ∈ json_data →
            resolved_value (sorted_tags json_data) resource key = "N/A").
  { intros resource Hin. rewrite resolved_value_last by assumption.
    rewrite (proj2 (last_value_None key resource)); [reflexivity|auto]. }
  clear Hwf Hno. revert Hval. generalize (sorted_tags json_data) as columns.
  intros columns Hval.
  induction json_data as [|resource rs IH].
  - destruct (decide ("N/A" ∈ excluded)); reflexivity.
  - rewrite filter_cons, (Hval resource) by left.
    assert (IH' := IH (λ r Hr, Hval r (list_elem_of_further _ _ _ Hr))).
    destruct (decide ("N/A" ∈ excluded)) as [Hin|Hnin].
    + rewrite decide_False by auto. exact IH'.
    + rewrite decide_True by assumption. rewrite !fmap_cons, IH'.
      unfold focused_row. rewrite (Hval resource) by left. reflexivity.
Qed.

Lemma focus_key_on_no_resource_witness :
  json_to_csv [r1; untagged] (Some "Env") (Some ["prod"])
    = Ok (["Resource ARN"; "Resource Type"; "Env"],
          [["arn:x:svc:r1"; "svc"; "N/A"]; ["arn:x:ec2:r3"; "ec2"; "N/A"]]).
Proof.
  apply (focus_key_on_no_resource [r1; untagged] "Env" ["prod"]).
  - discriminate.
  - repeat constructor; compute_done.
  - intros resource Hin (tag & Htag & Hkey).
    apply elem_of_cons in Hin as [->|Hin].
    + apply list_elem_of_singleton in Htag as ->. discriminate.
    + apply list_elem_of_singleton in Hin as ->. inversion Htag.
Defined.

(** X13: the tag columns depend only on the set of keys present: two
    inputs with the same keys, in whatever order, multiplicity or
    distribution over resources, have the same [sorted_tags]. *)
Theorem columns_do_not_depend_on_order json_data json_data' :
  (∀ key, (∃ resource, resource ∈ json_data ∧ has_key key resource) ↔
          (∃ resource, resource ∈ json_data' ∧ has_key key resource)) →
  sorted_tags json_data = sorted_tags json_data'.
Proof.
  intros Hsame.
  apply (Sorted_unique String.le).
  - apply StronglySorted_Sorted, sorted_tags_sorted.
  - apply StronglySorted_Sorted, sorted_tags_sorted.
  - apply NoDup_Permutation; [apply sorted_tags_NoDup..|].
    intros key. rewrite !elem_of_sorted_tags. apply Hsame.
Qed.

Lemma columns_do_not_depend_on_order_witness :
  sorted_tags [r1; r2] = sorted_tags [r2; r1; r2].
Proof.
  apply columns_do_not_depend_on_order.
  intros key. split; intros (resource & Hin & Hkey); exists resource;
    (split; [|exact Hkey]);
    repeat (apply elem_of_cons in Hin as [->|Hin]);
    try (inversion Hin; fail); repeat constructor.
Defined.

End projector_more.

(** ** More on the aggregator *)

Section aggregator_more.
Import Filter Aggregator Coverage Samples Runs.

Lemma seen_add_value all_tags k e v key env value :
  seen (add_value all_tags k e v) key env value ↔
  (key = k ∧ env = e ∧ value = v) ∨ seen all_tags key env value.
Proof.
  unfold seen, add_value. split.
  - intros (envs & values & Hk & He & Hv).
    destruct (decide (k = key)) as [->|Hne].
    + rewrite lookup_insert_eq in Hk. injection Hk as <-.
      destruct (decide (e = env)) as [->|Hne'].
      * rewrite lookup_insert_eq in He. injection He as <-.
        apply elem_of_union in Hv as [Hv|Hv].
        -- right. destruct (all_tags !! key) as [envs|]; simpl in Hv.
           ++ destruct (envs !! env) as [vs|] eqn:Hvs; simpl in Hv.
              ** eauto.
              ** exfalso. exact (not_elem_of_empty _ Hv).
           ++ rewrite lookup_empty in Hv. simpl in Hv.
              exfalso. exact (not_elem_of_empty _ Hv).
        -- apply elem_of_singleton in Hv. left. auto.
      * rewrite lookup_insert_ne in He by assumption. right.
        destruct (all_tags !! key) as [envs|]; simpl in He.
        -- eauto.
        -- rewrite lookup_empty in He. discriminate.
    + rewrite lookup_insert_ne in Hk by assumption. right. eauto.
  - intros [(-> & -> & ->)|(envs & values & Hk & He & Hv)].
    + do 2 eexists. rewrite !lookup_insert_eq. split; [reflexivity|].
      split; [reflexivity|]. apply elem_of_union. right.
      apply elem_of_singleton. reflexivity.
    + destruct (decide (k = key)) as [->|Hne].
      * rewrite Hk. simpl. destruct (decide (e = env)) as [->|Hne'].
        -- do 2 eexists. rewrite !lookup_insert_eq. split; [reflexivity|].
           split; [reflexivity|]. rewrite He. simpl.
           apply elem_of_union. left. assumption.
        -- exists (<[e:=default ∅ (envs !! e) ∪ {[v]}]> envs), values.
           rewrite lookup_insert_eq, lookup_insert_ne by assumption. auto.
      * exists envs, values. rewrite lookup_insert_ne by assumption. auto.
Qed.

Lemma seen_fold_tags env (resource_tags : list Tag) : ∀ acc key e value,
  seen (foldl (λ acc tag, add_value acc (Key tag) env (Value tag))
              acc resource_tags) key e value ↔
  seen acc key e value ∨
  (e = env ∧ ∃ tag, tag ∈ resource_tags ∧ Key tag = key ∧ Value tag = value).
Proof.
  induction resource_tags as [|tag ts IH]; intros acc key e value; simpl.
  - split; [auto|]. intros [?|(_ & tag & Hin & _)]; [assumption|inversion Hin].
  - rewrite IH, seen_add_value. split.
    + intros [[(-> & -> & ->)|?]|(-> & tag' & Hin & Hk)]; [right|left|right].
      * split; [reflexivity|]. exists tag. split; [left|auto].
      * assumption.
      * split; [reflexivity|]. exists tag'. split; [right; assumption|assumption].
    + intros [?|(-> & tag' & Hin & Hk & Hv)]; [auto|].
      apply elem_of_cons in Hin as [->|Hin]; [auto|].
      right. split; [reflexivity|]. eauto.
Qed.

Lemma seen_fold_resources env (tags : list Resource) : ∀ acc key e value,
  seen (foldl (λ acc resource,
                 foldl (λ acc tag, add_value acc (Key tag) env (Value tag))
                       acc (get_Tags resource))
              acc tags) key e value ↔
  seen acc key e value ∨
  (e = env ∧ ∃ resource tag,
     resource ∈ tags ∧ tag ∈ get_Tags resource ∧
     Key tag = key ∧ Value tag = value).
Proof.
  induction tags as [|resource rs IH]; intros acc key e value; simpl.
  - split; [auto|]. intros [?|(_ & r & tag & Hin & _)]; [assumption|inversion Hin].
  - rewrite IH, seen_fold_tags. split.
    + intros [[?|(-> & tag & Hin & Hk)]|(-> & r & tag & Hin & Ht & Hk)].
      * auto.
      * right. split; [reflexivity|]. exists resource, tag.
        split; [left|auto].
      * right. split; [reflexivity|]. exists r, tag.
        split; [right; assumption|auto].
    + intros [?|(-> & r & tag & Hin & Ht & Hk)]; [auto|].
      apply elem_of_cons in Hin as [->|Hin]; [left; right; eauto|].
      right. split; [reflexivity|]. eauto.
Qed.

Lemma seen_fold_envs (tag_data : list (string * list Resource)) :
  ∀ acc key e value,
  seen (foldl (λ acc item,
         foldl (λ acc resource,
                  foldl (λ acc tag, add_value acc (Key tag) item.1 (Value tag))
                        acc (get_Tags resource))
               acc item.2) acc tag_data) key e value ↔
  seen acc key e value ∨ tag_in_env tag_data key e value.
Proof.
  unfold tag_in_env.
  induction tag_data as [|[env tags] td IH]; intros acc key e value; simpl.
  - split; [auto|].
    intros [?|(tags & r & tag & Hin & _)]; [assumption|inversion Hin].
  - rewrite IH, seen_fold_resources. split.
    + intros [[?|(-> & r & tag & Hin & Ht & Hk)]|(tags' & r & tag & Hin & Hr)].
      * auto.
      * right. exists tags, r, tag. split; [left|auto].
      * right. exists tags', r, tag. split; [right; assumption|auto].
    + intros [?|(tags' & r & tag & Hin & Hr & Ht & Hk)]; [auto|].
      apply elem_of_cons in Hin as [[= -> ->]|Hin].
      * left. right. split; [reflexivity|]. eauto.
      * right. exists tags', r, tag. auto.
Qed.

Lemma seen_collect tag_data key env value :
  seen (collect tag_data) key env value ↔ tag_in_env tag_data key env value.
Proof.
  unfold collect. rewrite seen_fold_envs. split; [|auto].
  intros [(envs & values & Hk & _)|?]; [|assumption].
  rewrite lookup_empty in Hk. discriminate.
Qed.

Lemma inhabited_add_value all_tags k e v :
  inhabited_keys all_tags → inhabited_keys (add_value all_tags k e v).
Proof.
  unfold inhabited_keys, add_value. intros Hinv key envs Hk.
  destruct (decide (k = key)) as [->|Hne].
  - rewrite lookup_insert_eq in Hk. injection Hk as <-.
    exists e. rewrite lookup_insert_eq. eauto.
  - rewrite lookup_insert_ne in Hk by assumption. eauto.
Qed.

Lemma foldl_preserves {A B} (P : A → Prop) (f : A → B → A) (l : list B) :
  (∀ a b, P a → P (f a b)) → ∀ a, P a → P (foldl f a l).
Proof.
  intros Hf. induction l as [|b l IH]; intros a Ha; [exact Ha|].
  simpl. apply IH, Hf, Ha.
Qed.

Lemma inhabited_collect tag_data : inhabited_keys (collect tag_data).
Proof.
  unfold collect. apply foldl_preserves.
  - intros acc item Hacc. apply foldl_preserves; [|exact Hacc].
    intros acc' resource Hacc'. apply foldl_preserves; [|exact Hacc'].
    intros acc'' tag. apply inhabited_add_value.
  - intros key envs Hk. rewrite lookup_empty in Hk. discriminate.
Qed.

Lemma elem_of_summary_keys tag_data key :
  key ∈ (map_to_list (collect tag_data)).*1 ↔
  ∃ env, key_in_env tag_data key env.
Proof.
  rewrite list_elem_of_fmap. split.
  - intros ([k envs] & -> & Hin). apply elem_of_map_to_list in Hin. simpl.
    destruct (inhabited_collect tag_data k envs Hin) as [env Henv].
    exists env. apply observed_collect. exists envs. auto.
  - intros [env Hkey]. apply observed_collect in Hkey as (envs & Hk & _).
    exists (key, envs). split; [reflexivity|].
    apply elem_of_map_to_list. assumption.
Qed.

(** X14: in the presence summary of environments with distinct names, none
    named like a fixed column, the key column lists every tag key of
    the data exactly once and nothing else, every environment column
    has one mark per key, and that mark is [yes] when the key occurs in
    the environment and [no] when it does not. *)
Theorem summary_marks_are_exact tag_data :
  NoDup (env_names tag_data) →
  "Tag Key" ∉ env_names tag_data →
  "Possible Values" ∉ env_names tag_data →
  ∃ keys,
    generate_summary_csv tag_data !! "Tag Key" = Some (Text <$> keys) ∧
    NoDup keys ∧
    (∀ key, key ∈ keys ↔ ∃ env, key_in_env tag_data key env) ∧
    ∀ env, env ∈ env_names tag_data →
      ∃ marks,
        generate_summary_csv tag_data !! env = Some marks ∧
        length marks = length keys ∧
        ∀ row key, keys !! row = Some key →
          (key_in_env tag_data key env → marks !! row = Some (Text "yes")) ∧
          (¬ key_in_env tag_data key env → marks !! row = Some (Text "no")).
Proof.
  intros Hnd Htk Hpv.
  exists (map_to_list (collect tag_data)).*1.
  split; [|split; [|split]].
  - rewrite lookup_generate_summary_csv by (unfold is_column; auto).
    rewrite <- list_fmap_compose. reflexivity.
  - apply NoDup_fst_map_to_list.
  - apply elem_of_summary_keys.
  - intros env Henv.
    exists (column_cell env <$> map_to_list (collect tag_data)).
    rewrite lookup_generate_summary_csv by (unfold is_column; auto).
    split; [reflexivity|]. split; [rewrite !length_fmap; reflexivity|].
    intros row key Hrow. rewrite list_lookup_fmap in Hrow. rewrite !list_lookup_fmap.
    destruct (map_to_list (collect tag_data) !! row) as [[k envs]|] eqn:Hitem;
      [|discriminate].
    simpl in Hrow. injection Hrow as ->. simpl.
    assert (Hk : collect tag_data !! key = Some envs).
    { apply elem_of_map_to_list. eapply list_elem_of_lookup_2. exact Hitem. }
    unfold column_cell.
    rewrite decide_False by (intros ->; contradiction).
    rewrite decide_False by (intros ->; contradiction).
    unfold presence. simpl.
    assert (Hiff : is_Some (envs !! env) ↔ key_in_env tag_data key env).
    { rewrite <- observed_collect. unfold observed. split.
      - eauto.
      - intros (envs' & Hk' & Hs). congruence. }
    split; intros Hkey.
    + rewrite bool_decide_true by (apply Hiff; exact Hkey). reflexivity.
    + rewrite bool_decide_false by (rewrite Hiff; exact Hkey). reflexivity.
Qed.

Lemma summary_marks_are_exact_witness :
  ∃ keys,
    generate_summary_csv two_envs !! "Tag Key" = Some (Text <$> keys) ∧
    NoDup keys ∧
    (∀ key, key ∈ keys ↔ ∃ env, key_in_env two_envs key env) ∧
    ∀ env, env ∈ env_names two_envs →
      ∃ marks,
        generate_summary_csv two_envs !! env = Some marks ∧
        length marks = length keys ∧
        ∀ row key, keys !! row = Some key →
          (key_in_env two_envs key env → marks !! row = Some (Text "yes")) ∧
          (¬ key_in_env two_envs key env → marks !! row = Some (Text "no")).
Proof.
  apply (summary_marks_are_exact two_envs); compute_done.
Defined.

Lemma elem_of_possible_values (envs : gmap string (gset string)) value :
  value ∈ possible_values envs ↔
  ∃ env values, envs !! env = Some values ∧ value ∈ values.
Proof.
  unfold possible_values. rewrite elem_of_union_list. split.
  - intros (values & Hin & Hv). apply list_elem_of_fmap in Hin as ([env vs] & -> & Hin).
    apply elem_of_map_to_list in Hin. eauto.
  - intros (env & values & He & Hv). exists values. split; [|assumption].
    apply list_elem_of_fmap. exists (env, values). split; [reflexivity|].
    apply elem_of_map_to_list. assumption.
Qed.

(** X15: under the same conditions the column of possible values has one
    cell per key, and the cell of a key holds exactly the values that
    key takes on some resource of some environment. *)
Theorem summary_possible_values_are_exact tag_data :
  NoDup (env_names tag_data) →
  "Tag Key" ∉ env_names tag_data →
  "Possible Values" ∉ env_names tag_data →
  ∃ keys cells,
    generate_summary_csv tag_data !! "Tag Key" = Some (Text <$> keys) ∧
    generate_summary_csv tag_data !! "Possible Values" = Some cells ∧
    length cells = length keys ∧
    ∀ row key, keys !! row = Some key →
      ∃ values,
        cells !! row = Some (ValueSet values) ∧
        ∀ value, value ∈ values ↔
                 ∃ env, tag_in_env tag_data key env value.
Proof.
  intros Hnd Htk Hpv.
  exists (map_to_list (collect tag_data)).*1,
         (column_cell "Possible Values" <$> map_to_list (collect tag_data)).
  rewrite !lookup_generate_summary_csv by (unfold is_column; auto).
  split; [rewrite <- list_fmap_compose; reflexivity|].
  split; [reflexivity|]. split; [rewrite !length_fmap; reflexivity|].
  intros row key Hrow. rewrite list_lookup_fmap in Hrow. rewrite !list_lookup_fmap.
  destruct (map_to_list (collect tag_data) !! row) as [[k envs]|] eqn:Hitem;
    [|discriminate].
  simpl in Hrow. injection Hrow as ->. simpl.
  assert (Hk : collect tag_data !! key = Some envs).
  { apply elem_of_map_to_list. eapply list_elem_of_lookup_2. exact Hitem. }
  exists (possible_values envs). split; [reflexivity|].
  intros value. rewrite elem_of_possible_values. split.
  - intros (env & values & He & Hv). exists env. apply seen_collect.
    exists envs, values. auto.
  - intros [env Hseen]. apply seen_collect in Hseen as (envs' & values & Hk' & He & Hv).
    exists env, values. split; [congruence|assumption].
Qed.

Lemma summary_possible_values_are_exact_witness :
  ∃ keys cells,
    generate_summary_csv two_envs !! "Tag Key" = Some (Text <$> keys) ∧
    generate_summary_csv two_envs !! "Possible Values" = Some cells ∧
    length cells = length keys ∧
    ∀ row key, keys !! row = Some key →
      ∃ values,
        cells !! row = Some (ValueSet values) ∧
        ∀ value, value ∈ values ↔ ∃ env, tag_in_env two_envs key env value.
Proof.
  apply (summary_possible_values_are_exact two_envs); compute_done.
Defined.

Lemma has_focused_tag_true filters resource_tags :
  has_focused_tag filters resource_tags = true ↔
  Exists (λ tag, focus_match filters tag = true) resource_tags.
Proof.
  induction resource_tags as [|tag ts IH]; simpl.
  - split; [discriminate|]. intros H. inversion H.
  - rewrite Exists_cons. destruct (focus_match filters tag); [tauto|].
    rewrite IH. split; [auto|]. intros [?|?]; [discriminate|assumption].
Qed.

Lemma count_resources_exact_fold filters (tags : list Resource) :
  ∀ counts : nat * nat,
  foldl (λ counts resource,
           if has_focused_tag filters (get_Tags resource)
           then (counts.1 + 1, counts.2)%nat
           else (counts.1, counts.2 + 1)%nat) counts tags =
  ((counts.1 + length (filter (focused filters) tags))%nat,
   (counts.2 + length (filter (λ r, ¬ focused filters r) tags))%nat).
Proof.
  induction tags as [|resource rs IH]; intros [a b]; simpl.
  - f_equal; lia.
  - rewrite IH, !filter_cons.
    destruct (has_focused_tag filters (get_Tags resource)) eqn:Hf.
    + apply has_focused_tag_true in Hf.
      rewrite decide_True by exact Hf.
      rewrite decide_False by (intros Hn; exact (Hn Hf)).
      simpl. f_equal; lia.
    + assert (Hn : ¬ focused filters resource).
      { intros H. apply has_focused_tag_true in H. congruence. }
      rewrite decide_False by exact Hn. rewrite decide_True by exact Hn.
      simpl. f_equal; lia.
Qed.

Lemma count_resources_exact filters tags :
  count_resources filters tags =
  (length (filter (focused filters) tags),
   length (filter (λ r, ¬ focused filters r) tags)).
Proof. unfold count_resources. rewrite count_resources_exact_fold. reflexivity. Qed.

Lemma focused_fold_labels filters (tag_data : list (string * list Resource)) :
  ∀ acc,
  length (Focused_Tag_Key (foldl (focused_step filters) acc tag_data))
    = (length (Focused_Tag_Key acc) + length tag_data)%nat ∧
  length (Focused_Tag_Value (foldl (focused_step filters) acc tag_data))
    = (length (Focused_Tag_Value acc) + length tag_data)%nat ∧
  length (Excluded_Tag_Key (foldl (focused_step filters) acc tag_data))
    = (length (Excluded_Tag_Key acc) + length tag_data)%nat ∧
  length (Excluded_Tag_Value (foldl (focused_step filters) acc tag_data))
    = (length (Excluded_Tag_Value acc) + length tag_data)%nat.
Proof.
  induction tag_data as [|[env tags] td IH]; intros acc.
  - simpl. repeat split; lia.
  - cbn [foldl].
    destruct (IH (focused_step filters acc (env, tags))) as (H1 & H2 & H3 & H4).
    rewrite H1, H2, H3, H4. unfold focused_step.
    destruct (count_resources filters tags). simpl.
    rewrite !length_app. simpl. repeat split; lia.
Qed.

(** X16: the focused summary has one row per environment, in input
    order: its name, the number of its resources, the number of those
    with a tag passing the focus test, the number of those without,
    and one entry in each of the four label columns. *)
Theorem focused_summary_counts filters tag_data :
  let d := generate_focused_summary_csv filters tag_data in
  Environment d = env_names tag_data ∧
  Total_Resources d = (λ item, length item.2) <$> tag_data ∧
  Resources_with_Focused_Tags d
    = (λ item, length (filter (focused filters) item.2)) <$> tag_data ∧
  Resources_Missing_Focused_Tags d
    = (λ item, length (filter (λ r, ¬ focused filters r) item.2)) <$> tag_data ∧
  length (Focused_Tag_Key d) = length tag_data ∧
  length (Focused_Tag_Value d) = length tag_data ∧
  length (Excluded_Tag_Key d) = length tag_data ∧
  length (Excluded_Tag_Value d) = length tag_data.
Proof.
  unfold generate_focused_summary_csv. simpl.
  destruct (focused_fold filters tag_data empty_focused) as (He & Ht & Hw & Hm).
  destruct (focused_fold_labels filters tag_data empty_focused)
    as (H1 & H2 & H3 & H4).
  rewrite He, Ht, Hw, Hm, H1, H2, H3, H4. simpl.
  repeat split.
  - apply list_fmap_ext. intros _ item _. rewrite count_resources_exact. reflexivity.
  - apply list_fmap_ext. intros _ item _. rewrite count_resources_exact. reflexivity.
Qed.






End aggregator_more.

(** ** The credentials loader *)

Section credentials_facts.
Import Credentials Samples Runs.

Lemma all_chars_app p s t :
  all_chars p (s +:+ t) = all_chars p s && all_chars p t.
Proof.
  induction s as [|c s IH]; simpl; [reflexivity|].
  rewrite IH, andb_assoc. reflexivity.
Qed.

Lemma all_chars_impl (p q : Ascii.ascii → bool) s :
  (∀ c, p c = true → q c = true) → all_chars p s = true → all_chars q s = true.
Proof.
  intros Hpq. induction s as [|c s IH]; simpl; [reflexivity|].
  rewrite !andb_true_iff. intros [Hc Hs]. auto.
Qed.

Lemma lstrip_all p s t :
  all_chars p s = true → lstrip p (s +:+ t) = lstrip p t.
Proof.
  induction s as [|c s IH]; simpl; [reflexivity|].
  rewrite andb_true_iff. intros [-> Hs]. auto.
Qed.

Lemma lstrip_clean p s t :
  all_chars (λ c, negb (p c)) s = true → s ≠ "" →
  lstrip p (s +:+ t) = s +:+ t.
Proof.
  destruct s as [|c s]; [congruence|]. simpl.
  rewrite andb_true_iff, negb_true_iff. intros [-> _] _. reflexivity.
Qed.

Lemma rstrip_all p s : all_chars p s = true → rstrip p s = "".
Proof.
  induction s as [|c s IH]; simpl; [reflexivity|].
  rewrite andb_true_iff. intros [-> Hs]. rewrite IH by assumption. reflexivity.
Qed.

Lemma rstrip_clean p s t :
  all_chars (λ c, negb (p c)) s = true →
  rstrip p (s +:+ t) = s +:+ rstrip p t.
Proof.
  induction s as [|c s IH]; [reflexivity|].
  cbn [all_chars]. rewrite andb_true_iff, negb_true_iff. intros [Hc Hs].
  change (String c s +:+ t) with (String c (s +:+ t)).
  change (String c s +:+ rstrip p t) with (String c (s +:+ rstrip p t)).
  change (rstrip p (String c (s +:+ t)))
    with (match rstrip p (s +:+ t) with
          | EmptyString => if p c then "" else String c ""
          | kept => String c kept
          end).
  rewrite IH, Hc by assumption.
  destruct (s +:+ rstrip p t); reflexivity.
Qed.

Lemma append_cons c s t : String c s +:+ t = String c (s +:+ t).
Proof. reflexivity. Qed.

Lemma append_empty_r s : s +:+ "" = s.
Proof.
  induction s as [|c s IH]; [reflexivity|]. rewrite append_cons, IH. reflexivity.
Qed.

Lemma strip_between p before s after :
  all_chars p before = true →
  all_chars (λ c, negb (p c)) s = true →
  all_chars p after = true →
  strip p (before +:+ s +:+ after) = s.
Proof.
  intros Hb Hs Ha. unfold strip. rewrite lstrip_all by assumption.
  destruct (decide (s = "")) as [->|Hne].
  - change ("" +:+ after) with after.
    rewrite <- (append_empty_r after), lstrip_all by assumption. reflexivity.
  - rewrite lstrip_clean, rstrip_clean, rstrip_all by assumption.
    apply append_empty_r.
Qed.

Lemma split_once_at sep key rest :
  all_chars (λ c, negb (Ascii.eqb c sep)) key = true →
  split_once sep (key +:+ String sep rest) = [key; rest].
Proof.
  induction key as [|c key IH]; simpl.
  - intros _. rewrite Ascii.eqb_refl. reflexivity.
  - rewrite andb_true_iff, negb_true_iff. intros [-> Hkey].
    rewrite IH by assumption. reflexivity.
Qed.


Lemma prefix_cons_inv a s1 s2 :
  String.prefix (String a s1) s2 = true →
  ∃ s2', s2 = String a s2' ∧ String.prefix s1 s2' = true.
Proof.
  destruct s2 as [|b s2]; simpl; [discriminate|].
  destruct (ascii_dec a b) as [<-|]; [eauto|discriminate].
Qed.

Lemma prefix_export_needs_space s :
  all_chars (λ c, negb (Ascii.eqb c space)) s = true →
  String.prefix "export " s = false.
Proof.
  intros Hs.
  destruct (String.prefix "export " s) eqn:Hp; [|reflexivity].
  do 7 (apply prefix_cons_inv in Hp as (? & -> & Hp)).
  simpl in Hs. discriminate.
Qed.

Lemma replace_without_space s :
  all_chars (λ c, negb (Ascii.eqb c space)) s = true →
  replace "export " "" s = s.
Proof.
  unfold replace. induction s as [|c s IH]; [reflexivity|].
  intros Hs. cbn [replace_from].
  rewrite (prefix_export_needs_space (String c s)) by assumption.
  simpl in Hs. apply andb_true_iff in Hs as [_ Hs].
  rewrite IH by assumption. reflexivity.
Qed.

Lemma replace_export_prefix s :
  replace "export " "" ("export " +:+ s) = replace "export " "" s.
Proof. destruct s; reflexivity. Qed.

Lemma append_assoc s t u : (s +:+ t) +:+ u = s +:+ t +:+ u.
Proof.
  induction s as [|c s IH]; [reflexivity|].
  rewrite !append_cons, IH. reflexivity.
Qed.

Lemma prefix_append s t : String.prefix s (s +:+ t) = true.
Proof.
  induction s as [|c s IH]; [destruct t; reflexivity|].
  rewrite append_cons. simpl. destruct (ascii_dec c c); [exact IH|congruence].
Qed.

(** X18: a line [export KEY=VALUE], the value possibly between double
    quotes and followed by a line end, stores [VALUE] without the
    quotes under [KEY], when the key has no white space and no equals
    sign and the value no white space and no double quote. *)
Theorem export_line_is_read key value opening closing trailing creds :
  all_chars (λ c, negb (isspace c) && negb (Ascii.eqb c "=")) key = true →
  all_chars (λ c, negb (isspace c) && negb (Ascii.eqb c quote)) value = true →
  all_chars (Ascii.eqb quote) opening = true →
  all_chars (Ascii.eqb quote) closing = true →
  all_chars (λ c, isspace c && negb (Ascii.eqb c space)) trailing = true →
  read_lines
    ["export " +:+ key +:+ "=" +:+ opening +:+ value +:+ closing +:+ trailing]
    creds
  = inr (<[ key := value ]> creds).
Proof.
  intros Hkey Hvalue Hopen Hclose Htrail.
  set (inner := opening +:+ value +:+ closing).
  set (body := key +:+ "=" +:+ inner).
  assert (Hline : "export " +:+ key +:+ "=" +:+ opening +:+ value +:+ closing
                    +:+ trailing = "export " +:+ body +:+ trailing).
  { unfold body, inner. rewrite !append_assoc. reflexivity. }
  rewrite Hline. clear Hline.
  assert (Hkey1 : all_chars (λ c, negb (isspace c)) key = true)
    by (eapply all_chars_impl; [|exact Hkey];
        intros c Hc; apply andb_true_iff in Hc; tauto).
  assert (Hkey2 : all_chars (λ c, negb (Ascii.eqb c "=")) key = true)
    by (eapply all_chars_impl; [|exact Hkey];
        intros c Hc; apply andb_true_iff in Hc; tauto).
  assert (Hval1 : all_chars (λ c, negb (isspace c)) value = true)
    by (eapply all_chars_impl; [|exact Hvalue];
        intros c Hc; apply andb_true_iff in Hc; tauto).
  assert (Hval2 : all_chars (λ c, negb (Ascii.eqb quote c)) value = true).
  { eapply all_chars_impl; [|exact Hvalue].
    intros c Hc. apply andb_true_iff in Hc as [_ Hc].
    rewrite Ascii.eqb_sym. exact Hc. }
  assert (Htr1 : all_chars isspace trailing = true)
    by (eapply all_chars_impl; [|exact Htrail];
        intros c Hc; apply andb_true_iff in Hc; tauto).
  assert (Htr2 : all_chars (λ c, negb (Ascii.eqb c space)) trailing = true)
    by (eapply all_chars_impl; [|exact Htrail];
        intros c Hc; apply andb_true_iff in Hc; tauto).
  assert (Hquotes : ∀ s, all_chars (Ascii.eqb quote) s = true →
            all_chars (λ c, negb (isspace c)) s = true).
  { intros s Hs. eapply all_chars_impl; [|exact Hs].
    intros c Hc. apply Ascii.eqb_eq in Hc. subst c. reflexivity. }
  assert (Hspace : ∀ s, all_chars (λ c, negb (isspace c)) s = true →
            all_chars (λ c, negb (Ascii.eqb c space)) s = true).
  { intros s Hs. eapply all_chars_impl; [|exact Hs].
    intros c Hc. destruct (Ascii.eqb_spec c space) as [->|]; [|reflexivity].
    discriminate Hc. }
  assert (Hbody : all_chars (λ c, negb (isspace c)) body = true).
  { unfold body, inner. rewrite !all_chars_app.
    rewrite Hkey1, Hval1, (Hquotes _ Hopen), (Hquotes _ Hclose). reflexivity. }
  assert (Hrest : all_chars (λ c, negb (Ascii.eqb c space)) (body +:+ trailing)
                  = true).
  { rewrite all_chars_app, (Hspace _ Hbody), Htr2. reflexivity. }
  cbn [read_lines]. unfold startswith.
  change "export " with ("export" +:+ " "). rewrite append_assoc.
  rewrite prefix_append. rewrite <- append_assoc.
  change ("export" +:+ " ") with "export ".
  unfold assignment.
  rewrite replace_export_prefix, replace_without_space by exact Hrest.
  change (body +:+ trailing) with ("" +:+ body +:+ trailing).
  rewrite (strip_between isspace "" body trailing) by (assumption || reflexivity).
  unfold body. change ("=" +:+ inner) with (String "=" inner).
  rewrite split_once_at by exact Hkey2.
  unfold inner.
  rewrite (strip_between (Ascii.eqb quote) opening value closing) by assumption.
  reflexivity.
Qed.

Lemma export_line_is_read_witness :
  read_lines [region_line] ∅ = inr {[ "AWS_REGION" := "eu-west-1" ]}.
Proof.
  apply (export_line_is_read "AWS_REGION" "eu-west-1"
           (String quote "") (String quote "") newline ∅); reflexivity.
Defined.

Lemma append_empty_l s : "" +:+ s = s.
Proof. reflexivity. Qed.











Lemma read_lines_fold lines : ∀ creds creds',
  read_lines lines creds = inr creds' →
  creds' = foldl (λ acc kv, <[ kv.1 := kv.2 ]> acc) creds (assignments lines).
Proof.
  induction lines as [|line lines IH]; intros creds creds'; simpl.
  - intros [= <-]. reflexivity.
  - unfold assignments. cbn [omap list_omap]. fold (assignments lines).
    destruct (startswith "export" line); [|apply IH].
    destruct (assignment line) as [e|[key value]]; [discriminate|].
    intros Hr. apply IH in Hr. exact Hr.
Qed.

Lemma lookup_fold_insert (pairs : list (string * string)) :
  ∀ (creds : gmap string string) key,
  foldl (λ acc kv, <[ kv.1 := kv.2 ]> acc) creds pairs !! key =
  match last (filter (λ kv, kv.1 = key) pairs) with
  | Some kv => Some kv.2
  | None => creds !! key
  end.
Proof.
  induction pairs as [|[k v] pairs IH]; intros creds key; [reflexivity|].
  simpl. rewrite IH, filter_cons. simpl.
  destruct (decide (k = key)) as [->|Hne].
  - rewrite last_cons. destruct (last (filter _ pairs)); [reflexivity|].
    apply lookup_insert_eq.
  - destruct (last (filter _ pairs)); [reflexivity|].
    apply lookup_insert_ne. assumption.
Qed.

(** X20: reading the lines of a file over a dictionary gives, for every
    key, the value of the last line that assigns it, and leaves the
    keys no line assigns as they were; lines that do not start with
    [export] count for nothing. *)
Theorem later_assignment_wins lines creds creds' :
  read_lines lines creds = inr creds' →
  ∀ key,
    creds' !! key =
    match last (filter (λ kv, kv.1 = key) (assignments lines)) with
    | Some kv => Some kv.2
    | None => creds !! key
    end.
Proof.
  intros Hr key. rewrite (read_lines_fold _ _ _ Hr). apply lookup_fold_insert.
Qed.

Lemma later_assignment_wins_witness :
  ({[ "A" := "2" ]} : gmap string string) !! "A" =
  match last (filter (λ kv, kv.1 = "A")
                (assignments ["export A=1"; "# rotated"; "export A=2"])) with
  | Some kv => Some kv.2
  | None => (∅ : gmap string string) !! "A"
  end.
Proof.
  apply (later_assignment_wins ["export A=1"; "# rotated"; "export A=2"] ∅).
  reflexivity.
Defined.

Lemma dict_set_keys {V} (d : list (string * V)) key value :
  (dict_set d key value).*1 =
  if decide (key ∈ d.*1) then d.*1 else (d.*1 ++ [key])%list.
Proof.
  induction d as [|[k v] d IH].
  - simpl. destruct (decide (key ∈ [])) as [Hin|]; [inversion Hin|reflexivity].
  - cbn [dict_set]. destruct (decide (k = key)) as [->|Hne];
      rewrite !fmap_cons; cbn [fst].
    + rewrite decide_True by left. reflexivity.
    + rewrite IH.
      destruct (decide (key ∈ d.*1)) as [Hin|Hnin].
      * rewrite decide_True by (right; assumption). reflexivity.
      * rewrite decide_False; [reflexivity|].
        rewrite elem_of_cons. intros [->|?]; congruence.
Qed.

Lemma dict_set_NoDup {V} (d : list (string * V)) key value :
  NoDup d.*1 → NoDup (dict_set d key value).*1.
Proof.
  intros Hnd. rewrite dict_set_keys.
  destruct (decide (key ∈ d.*1)); [assumption|].
  apply NoDup_app. split; [assumption|]. split; [|apply NoDup_singleton].
  intros k Hk Hk'. apply list_elem_of_singleton in Hk'. subst k. contradiction.
Qed.

Lemma elem_of_dict_set {V} (d : list (string * V)) key value k v :
  NoDup d.*1 →
  (k, v) ∈ dict_set d key value ↔
  if decide (k = key) then v = value else (k, v) ∈ d.
Proof.
  induction d as [|[k' v'] d IH]; intros Hnd.
  - cbn [dict_set]. rewrite list_elem_of_singleton.
    destruct (decide (k = key)) as [->|Hne].
    + split; [intros [= ->]; reflexivity|intros ->; reflexivity].
    + split; [intros [= ? ?]; congruence|intros Hin; inversion Hin].
  - rewrite fmap_cons in Hnd. cbn [fst] in Hnd.
    apply NoDup_cons in Hnd as [Hfresh Hnd].
    assert (Hkeys : ∀ x, (k', x) ∈ d → False).
    { intros x Hx. apply Hfresh. apply list_elem_of_fmap. exists (k', x). auto. }
    cbn [dict_set]. destruct (decide (k' = key)) as [->|Hne'].
    + rewrite !elem_of_cons. destruct (decide (k = key)) as [->|Hne].
      * split.
        -- intros [Heq|Hin]; [congruence|]. exfalso. eapply Hkeys. exact Hin.
        -- intros ->. left. reflexivity.
      * split.
        -- intros [Heq|Hin]; [congruence|]. right. assumption.
        -- rewrite elem_of_cons. intros [Heq|Hin]; [congruence|]. right. assumption.
    + rewrite !elem_of_cons, IH by assumption.
      destruct (decide (k = key)) as [->|Hne].
      * split; [intros [Heq|?]; [congruence|assumption]|auto].
      * rewrite elem_of_cons. reflexivity.
Qed.

Lemma load_loop_spec entries : ∀ acc credentials,
  NoDup acc.*1 →
  load_loop entries acc = inr credentials →
  NoDup credentials.*1 ∧
  ∀ env creds,
    (env, creds) ∈ credentials ↔
    match last (filter (λ entry, env_name entry.1 = env) (ini_entries entries)) with
    | Some entry => read_lines entry.2 ∅ = inr creds
    | None => (env, creds) ∈ acc
    end.
Proof.
  induction entries as [|[filename lines] entries IH]; intros acc credentials Hnd.
  - simpl. intros [= <-]. split; [assumption|]. intros env creds. reflexivity.
  - cbn [load_loop]. unfold ini_entries. rewrite filter_cons.
    fold (ini_entries entries). cbn [fst].
    destruct (endswith ".ini" filename) eqn:Hini.
    2:{ rewrite decide_False by discriminate. apply IH. assumption. }
    rewrite decide_True by reflexivity.
    destruct (read_lines lines ∅) as [e|c] eqn:Hr; [discriminate|].
    intros Hload.
    destruct (IH _ _ (dict_set_NoDup acc (env_name filename) c Hnd) Hload)
      as [Hnd' Hspec].
    split; [assumption|]. intros env creds. rewrite Hspec, filter_cons. cbn [fst].
    destruct (decide (env_name filename = env)) as [<-|Hne].
    + rewrite last_cons.
      destruct (last (filter _ (ini_entries entries))); [reflexivity|].
      rewrite elem_of_dict_set, decide_True by auto. cbn [snd]. rewrite Hr.
      split; [intros ->; reflexivity|intros [= ->]; reflexivity].
    + destruct (last (filter _ (ini_entries entries))); [reflexivity|].
      rewrite elem_of_dict_set, decide_False by auto. reflexivity.
Qed.

Lemma load_loop_keys entries : ∀ acc credentials env,
  load_loop entries acc = inr credentials →
  env ∈ credentials.*1 ↔
  env ∈ acc.*1 ∨ env ∈ (λ entry, env_name entry.1) <$> ini_entries entries.
Proof.
  induction entries as [|[filename lines] entries IH]; intros acc credentials env.
  - simpl. intros [= <-]. rewrite elem_of_nil. tauto.
  - cbn [load_loop]. unfold ini_entries. rewrite filter_cons.
    fold (ini_entries entries). cbn [fst].
    destruct (endswith ".ini" filename) eqn:Hini.
    2:{ rewrite decide_False by discriminate. apply IH. }
    rewrite decide_True by reflexivity.
    destruct (read_lines lines ∅) as [e|c]; [discriminate|].
    intros Hload. rewrite (IH _ _ _ Hload), dict_set_keys, fmap_cons, elem_of_cons.
    cbn [fst].
    destruct (decide (env_name filename ∈ acc.*1)) as [Hin|Hnin].
    + split; [tauto|]. intros [?|[->|?]]; auto.
    + rewrite elem_of_app, list_elem_of_singleton. tauto.
Qed.

Lemma endswith_append suffix s : endswith suffix (s +:+ suffix) = true.
Proof.
  induction s as [|c s IH].
  - rewrite append_empty_l. destruct suffix; simpl.
    + reflexivity.
    + rewrite Ascii.eqb_refl, String.eqb_refl. reflexivity.
  - rewrite append_cons. cbn [endswith]. rewrite IH. apply orb_true_r.
Qed.

(** X21: the loader returns one entry per environment name, the names
    being the first dot-segments of the file names that end in [.ini];
    other files are not read; and when two files give the same name the
    entry holds the credentials of the one listed last, alone. *)
Theorem credentials_by_environment entries credentials :
  load_aws_credentials entries = inr credentials →
  NoDup credentials.*1 ∧
  (∀ env, env ∈ credentials.*1 ↔
          env ∈ (λ entry, env_name entry.1) <$> ini_entries entries) ∧
  (∀ env creds,
     (env, creds) ∈ credentials ↔
     ∃ entry,
       last (filter (λ entry, env_name entry.1 = env) (ini_entries entries))
         = Some entry ∧
       read_lines entry.2 ∅ = inr creds).
Proof.
  unfold load_aws_credentials. intros Hload.
  destruct (load_loop_spec entries [] credentials (NoDup_nil_2) Hload)
    as [Hnd Hspec].
  split; [assumption|]. split.
  - intros env. rewrite (load_loop_keys _ _ _ env Hload). simpl.
    rewrite elem_of_nil. tauto.
  - intros env creds. rewrite Hspec.
    destruct (last (filter _ (ini_entries entries))) as [entry|].
    + split; [eauto|]. intros (entry' & [= <-] & Hr). exact Hr.
    + rewrite elem_of_nil. split; [tauto|]. intros (entry & Hn & _). discriminate.
Qed.

Lemma credentials_by_environment_witness :
  NoDup [("prod", ({[ "A" := "2" ]} : gmap string string)); ("dev", ∅)].*1 ∧
  (∀ env, env ∈ [("prod", ({[ "A" := "2" ]} : gmap string string)); ("dev", ∅)].*1 ↔
          env ∈ (λ entry, env_name entry.1) <$> ini_entries directory) ∧
  (∀ env creds,
     (env, creds) ∈ [("prod", ({[ "A" := "2" ]} : gmap string string)); ("dev", ∅)] ↔
     ∃ entry,
       last (filter (λ entry, env_name entry.1 = env) (ini_entries directory))
         = Some entry ∧
       read_lines entry.2 ∅ = inr creds).
Proof.
  apply (credentials_by_environment directory). reflexivity.
Defined.

End credentials_facts.

(** ** The run over the environments *)

Section orchestrator_facts.
Import Orchestrator Samples Runs.

Lemma bind_returns {A B} (m : M A) (k : A → M B) w a w' :
  m w = Returns a w' → (m ≫= k) w = k a w'.
Proof. intros H. unfold mbind, M_bind. rewrite H. reflexivity. Qed.

Lemma bind_raises {A B} (m : M A) (k : A → M B) w e w' :
  m w = Raises e w' → (m ≫= k) w = Raises e w'.
Proof. intros H. unfold mbind, M_bind. rewrite H. reflexivity. Qed.

Lemma bind_blocks {A B} (m : M A) (k : A → M B) w w' :
  m w = Blocks w' → (m ≫= k) w = Blocks w'.
Proof. intros H. unfold mbind, M_bind. rewrite H. reflexivity. Qed.

(** In full mode [exclude_values] is not read. *)
Lemma rows_loop_full_mode columns focus_key exclude_values exclude_values'
    json_data : ∀ csv_rows,
  truthy focus_key = false →
  Projector.rows_loop columns focus_key exclude_values json_data csv_rows
    = Projector.rows_loop columns focus_key exclude_values' json_data csv_rows.
Proof.
  intros csv_rows Hfk. revert csv_rows.
  assert (Hrow : ∀ resource,
            Projector.row_of columns focus_key exclude_values resource
            = Projector.row_of columns focus_key exclude_values' resource).
  { intros resource. unfold Projector.row_of.
    destruct (Projector.resource_type (ResourceARN resource)); [|reflexivity].
    simpl. destruct focus_key; [rewrite Hfk|]; reflexivity. }
  induction json_data as [|resource rs IH]; intros csv_rows; [reflexivity|].
  simpl. rewrite Hrow.
  destruct (Projector.row_of columns focus_key exclude_values' resource) as [[row|]|];
    simpl; auto.
Qed.

Lemma json_to_csv_full_mode json_data focus_key exclude_values exclude_values' :
  truthy focus_key = false →
  Projector.json_to_csv json_data focus_key exclude_values
    = Projector.json_to_csv json_data focus_key exclude_values'.
Proof.
  intros Hfk. unfold Projector.json_to_csv.
  rewrite (rows_loop_full_mode _ _ exclude_values exclude_values') by assumption.
  reflexivity.
Qed.

Lemma Projector_json_to_csv_full json_data focus_key exclude_values :
  truthy focus_key = false →
  Forall (λ resource, Projector.well_formed_arn (ResourceARN resource)) json_data →
  Projector.json_to_csv json_data focus_key exclude_values =
  Ok ((Projector.csv_header json_data focus_key),
      Projector.full_row (Projector.sorted_tags json_data) <$> json_data).
Proof.
  intros Hfk Hwf. rewrite json_to_csv_full by assumption. unfold Projector.csv_header.
  destruct focus_key; [rewrite Hfk|]; reflexivity.
Qed.

Lemma report_names_differ env : env +:+ "_tags.csv" ≠ env +:+ "_focused_tags.csv".
Proof. intros H. apply (inj (String.app env)) in H. discriminate. Qed.

Lemma process_with_credentials env creds filters w :
  has_credentials creds →
  process_environment_tags env creds filters w
    = fetch_and_report env creds filters (export_credentials creds w).
Proof.
  intros ([a Ha] & [b Hb] & [c Hc]).
  unfold process_environment_tags, export_credentials, credential.
  rewrite Ha, Hb, Hc. reflexivity.
Qed.

Lemma process_without_credentials env creds filters w :
  ¬ has_credentials creds →
  ∃ w', process_environment_tags env creds filters w = Raises (Python KeyError) w'.
Proof.
  intros Hmissing. unfold process_environment_tags, credential.
  destruct (creds !! "AWS_ACCESS_KEY_ID") as [a|] eqn:Ha; [|eexists; reflexivity].
  destruct (creds !! "AWS_SECRET_ACCESS_KEY") as [b|] eqn:Hb;
    [|eexists; reflexivity].
  destruct (creds !! "AWS_SESSION_TOKEN") as [c|] eqn:Hc; [|eexists; reflexivity].
  exfalso. apply Hmissing. unfold has_credentials. rewrite Ha, Hb, Hc. eauto.
Qed.

Lemma preserves_bind {A B X} (f : World → X) (m : M A) (k : A → M B) :
  preserves f m → (∀ a, preserves f (k a)) → preserves f (m ≫= k).
Proof.
  intros Hm Hk w. unfold mbind, M_bind. specialize (Hm w).
  destruct (m w) as [a w'| |]; simpl in *; [|assumption..].
  rewrite Hk. assumption.
Qed.

Lemma preserves_ret {A X} (f : World → X) (a : A) : preserves f (mret a).
Proof. intros w. reflexivity. Qed.

Lemma preserves_raise {A X} (f : World → X) e : preserves f (raise (A:=A) e).
Proof. intros w. reflexivity. Qed.

Lemma preserves_lift {A X} (f : World → X) (r : result A) : preserves f (lift r).
Proof. intros w. unfold lift. destruct r; reflexivity. Qed.

Lemma preserves_first_include_key {X} (f : World → X) filters :
  preserves f (first_include_key filters).
Proof.
  unfold first_include_key.
  destruct (filters !! "include_keys") as [[|key keys]|];
    [apply preserves_raise|apply preserves_ret..].
Qed.

Lemma preserves_environ_fetch region : preserves environ (fetch_resource_tags region).
Proof.
  intros w. unfold fetch_resource_tags.
  destruct (Fetcher.fetch_resource_tags _ _ _).2; reflexivity.
Qed.

Lemma preserves_files_fetch region : preserves files (fetch_resource_tags region).
Proof.
  intros w. unfold fetch_resource_tags.
  destruct (Fetcher.fetch_resource_tags _ _ _).2; reflexivity.
Qed.

Lemma preserves_environ_json_to_csv json_data name focus_key exclude_values :
  preserves environ (json_to_csv json_data name focus_key exclude_values).
Proof.
  apply preserves_bind; [apply preserves_lift|]. intros table w. reflexivity.
Qed.

Lemma preserves_upstream_json_to_csv json_data name focus_key exclude_values :
  preserves (λ w, (upstream w, issued w))
            (json_to_csv json_data name focus_key exclude_values).
Proof.
  apply preserves_bind; [apply preserves_lift|]. intros table w. reflexivity.
Qed.

Lemma preserves_environ_fetch_and_report env creds filters :
  preserves environ (fetch_and_report env creds filters).
Proof.
  unfold fetch_and_report.
  apply preserves_bind; [apply preserves_environ_fetch|]. intros tags.
  apply preserves_bind; [apply preserves_environ_json_to_csv|]. intros _.
  case_bool_decide; [|apply preserves_ret].
  apply preserves_bind; [apply preserves_first_include_key|]. intros focus_key.
  apply preserves_environ_json_to_csv.
Qed.

(** X22: when one of the three credentials is missing,
    [process_environment_tags] raises [KeyError] before any CLI call and
    any file: files, pending calls and issued calls are as before, and
    only the access key and the secret key may have been exported. *)
Theorem missing_credential_stops_before_fetch env creds filters w :
  ¬ has_credentials creds →
  ∃ w',
    process_environment_tags env creds filters w = Raises (Python KeyError) w' ∧
    files w' = files w ∧ upstream w' = upstream w ∧ issued w' = issued w ∧
    (∀ name, name ∉ ["AWS_ACCESS_KEY_ID"; "AWS_SECRET_ACCESS_KEY"] →
             environ w' !! name = environ w !! name).
Proof.
  intros Hmissing. unfold process_environment_tags, credential.
  destruct (creds !! "AWS_ACCESS_KEY_ID") as [a|] eqn:Ha.
  - destruct (creds !! "AWS_SECRET_ACCESS_KEY") as [b|] eqn:Hb.
    + destruct (creds !! "AWS_SESSION_TOKEN") as [c|] eqn:Hc.
      * exfalso. apply Hmissing. unfold has_credentials.
        rewrite Ha, Hb, Hc. eauto.
      * eexists. split; [reflexivity|]. simpl. repeat split.
        intros name Hname. rewrite !lookup_insert_ne; [reflexivity|..];
          intros <-; apply Hname; set_solver.
    + eexists. split; [reflexivity|]. simpl. repeat split.
      intros name Hname. rewrite lookup_insert_ne; [reflexivity|].
      intros <-; apply Hname; set_solver.
  - eexists. split; [reflexivity|]. simpl. auto.
Qed.

Lemma missing_credential_stops_before_fetch_witness :
  ∃ w',
    process_environment_tags "prod" partial_creds only_team (one_page_world 2)
      = Raises (Python KeyError) w' ∧
    files w' = files (one_page_world 2) ∧
    upstream w' = upstream (one_page_world 2) ∧
    issued w' = issued (one_page_world 2) ∧
    (∀ name, name ∉ ["AWS_ACCESS_KEY_ID"; "AWS_SECRET_ACCESS_KEY"] →
             environ w' !! name = environ (one_page_world 2) !! name).
Proof.
  apply (missing_credential_stops_before_fetch
           "prod" partial_creds only_team (one_page_world 2)).
  compute_done.
Defined.

Lemma exists_has_credentials env creds filters w w' :
  process_environment_tags env creds filters w = Returns () w' →
  has_credentials creds.
Proof.
  intros Hret.
  destruct (decide (has_credentials creds)) as [Hcreds|Hmissing]; [assumption|].
  destruct (process_without_credentials env creds filters w Hmissing)
    as (w'' & Hraise). congruence.
Qed.

(** X23: when [process_environment_tags] returns, the three credentials
    were all present, the process environment holds their values, and
    every other variable is as before: [AWS_REGION] in particular is
    passed on the command line only. *)
Theorem exported_credentials env creds filters w w' :
  process_environment_tags env creds filters w = Returns () w' →
  has_credentials creds ∧
  (∀ name, name ∈ ["AWS_ACCESS_KEY_ID"; "AWS_SECRET_ACCESS_KEY";
                   "AWS_SESSION_TOKEN"] →
           environ w' !! name = creds !! name) ∧
  (∀ name, name ∉ ["AWS_ACCESS_KEY_ID"; "AWS_SECRET_ACCESS_KEY";
                   "AWS_SESSION_TOKEN"] →
           environ w' !! name = environ w !! name).
Proof.
  intros Hret.
  destruct (decide (has_credentials creds)) as [Hcreds|Hmissing].
  2:{ destruct (process_without_credentials env creds filters w Hmissing)
        as (w'' & Hraise). congruence. }
  split; [exact Hcreds|].
  rewrite process_with_credentials in Hret by assumption.
  pose proof (preserves_environ_fetch_and_report env creds filters
                (export_credentials creds w)) as Henv.
  rewrite Hret in Henv. simpl in Henv. rewrite Henv.
  destruct Hcreds as ([a Ha] & [b Hb] & [c Hc]).
  rewrite Ha, Hb, Hc. simpl. split.
  - intros name Hname.
    repeat (apply elem_of_cons in Hname as [->|Hname]);
      [| |  |inversion Hname].
    + rewrite !lookup_insert_ne by discriminate. rewrite lookup_insert_eq. auto.
    + rewrite lookup_insert_ne by discriminate. rewrite lookup_insert_eq. auto.
    + rewrite lookup_insert_eq. auto.
  - intros name Hname. rewrite !lookup_insert_ne; [reflexivity|..];
      intros <-; apply Hname; set_solver.
Qed.

Lemma exported_credentials_witness :
  has_credentials full_creds ∧
  (∀ name, name ∈ ["AWS_ACCESS_KEY_ID"; "AWS_SECRET_ACCESS_KEY";
                   "AWS_SESSION_TOKEN"] →
           environ (final (process_environment_tags
                             "prod" full_creds ∅ (one_page_world 1))) !! name
             = full_creds !! name) ∧
  (∀ name, name ∉ ["AWS_ACCESS_KEY_ID"; "AWS_SECRET_ACCESS_KEY";
                   "AWS_SESSION_TOKEN"] →
           environ (final (process_environment_tags
                             "prod" full_creds ∅ (one_page_world 1))) !! name
             = environ (one_page_world 1) !! name).
Proof.
  apply (exported_credentials "prod" full_creds ∅ (one_page_world 1)).
  reflexivity.
Defined.

Lemma json_to_csv_returns json_data name focus_key exclude_values w w' :
  json_to_csv json_data name focus_key exclude_values w = Returns () w' →
  ∃ header rows,
    Projector.json_to_csv json_data focus_key exclude_values
      = Ok (header, rows) ∧
    w' = {| environ := environ w;
            files := <[ name := Csv header rows ]> (files w);
            upstream := upstream w;
            issued := issued w |}.
Proof.
  unfold json_to_csv, lift, write_file, mbind, M_bind.
  destruct (Projector.json_to_csv json_data focus_key exclude_values)
    as [[header rows]|e]; [|discriminate].
  intros [= <-]. eauto.
Qed.

Lemma fetch_and_report_inv env creds filters w w' :
  fetch_and_report env creds filters w = Returns () w' →
  ∃ tags w1 w2,
    fetch_resource_tags (default "eu-central-1" (creds !! "AWS_REGION")) w
      = Returns tags w1 ∧
    json_to_csv tags (env +:+ "_tags.csv") None None w1 = Returns () w2 ∧
    (if bool_decide (filters ≠ ∅)
     then ∃ focus_key,
            first_include_key filters w2 = Returns focus_key w2 ∧
            json_to_csv tags (env +:+ "_focused_tags.csv") focus_key
                        (Some (Filter.get filters "exclude_values")) w2
              = Returns () w'
     else w' = w2).
Proof.
  unfold fetch_and_report. unfold mbind at 1. unfold M_bind at 1.
  destruct (fetch_resource_tags _ w) as [tags w1| |]; [|discriminate..].
  unfold mbind at 1. unfold M_bind at 1.
  destruct (json_to_csv tags _ None None w1) as [[] w2| |] eqn:Hcsv;
    [|discriminate..].
  intros Hrest. exists tags, w1, w2. split; [reflexivity|]. split; [exact Hcsv|].
  case_bool_decide; [|injection Hrest as <-; reflexivity].
  unfold mbind, M_bind in Hrest.
  destruct (first_include_key filters w2) as [focus_key w3| |] eqn:Hkey;
    [|discriminate..].
  assert (w3 = w2) as ->.
  { unfold first_include_key in Hkey.
    destruct (filters !! "include_keys") as [[|key keys]|];
      try discriminate; injection Hkey as _ <-; reflexivity. }
  eauto.
Qed.

(** X24: with a focus file that has rules but no [include_keys] entry, the
    focus key is [None], the projector runs in full mode a second time,
    and the focused report is a copy of the regular report. *)
Theorem focused_report_without_include_keys env creds filters w w' :
  filters ≠ ∅ →
  filters !! "include_keys" = None →
  process_environment_tags env creds filters w = Returns () w' →
  ∃ header rows,
    files w' !! (env +:+ "_tags.csv") = Some (Csv header rows) ∧
    files w' !! (env +:+ "_focused_tags.csv") = Some (Csv header rows).
Proof.
  intros Hne Hnone Hret.
  pose proof (exists_has_credentials env creds filters w w' Hret) as Hcreds.
  rewrite process_with_credentials in Hret by assumption.
  apply fetch_and_report_inv in Hret as (tags & w1 & w2 & _ & Hcsv & Hfocus).
  rewrite bool_decide_true in Hfocus by assumption.
  destruct Hfocus as (focus_key & Hkey & Hfocused).
  unfold first_include_key in Hkey. rewrite Hnone in Hkey.
  injection Hkey as <-.
  apply json_to_csv_returns in Hcsv as (header & rows & Htable & ->).
  apply json_to_csv_returns in Hfocused as (header' & rows' & Htable' & ->).
  rewrite (json_to_csv_full_mode _ _ _ None) in Htable' by reflexivity.
  rewrite Htable in Htable'. injection Htable' as <- <-.
  exists header, rows. simpl. split.
  - rewrite lookup_insert_ne by (intros H; symmetry in H; revert H; apply report_names_differ).
    apply lookup_insert_eq.
  - apply lookup_insert_eq.
Qed.

Lemma focused_report_without_include_keys_witness :
  ∃ header rows,
    files (final (process_environment_tags
                    "prod" full_creds {[ "exclude_values" := ["core"] ]}
                    (one_page_world 1))) !! "prod_tags.csv"
      = Some (Csv header rows) ∧
    files (final (process_environment_tags
                    "prod" full_creds {[ "exclude_values" := ["core"] ]}
                    (one_page_world 1))) !! "prod_focused_tags.csv"
      = Some (Csv header rows).
Proof.
  apply (focused_report_without_include_keys
           "prod" full_creds {[ "exclude_values" := ["core"] ]}
           (one_page_world 1)).
  - compute_done.
  - reflexivity.
  - reflexivity.
Defined.

Lemma fetch_and_report_unfold env creds filters w :
  fetch_and_report env creds filters w =
  match fetch_and_report env creds ∅ w with
  | Returns _ w1 =>
      if bool_decide (filters ≠ ∅) then
        (focus_key ← first_include_key filters;
         json_to_csv (match fetch_resource_tags
                              (default "eu-central-1" (creds !! "AWS_REGION")) w with
                      | Returns tags _ => tags
                      | _ => []
                      end)
                     (env +:+ "_focused_tags.csv") focus_key
                     (Some (Filter.get filters "exclude_values"))) w1
      else Returns () w1
  | Raises e w1 => Raises e w1
  | Blocks w1 => Blocks w1
  end.
Proof.
  unfold fetch_and_report. rewrite (bool_decide_false (∅ ≠ ∅)) by auto.
  unfold mbind, M_bind.
  destruct (fetch_resource_tags _ w) as [tags w1| |]; [|reflexivity..].
  destruct (json_to_csv tags _ None None w1) as [[] w2| |]; [|reflexivity..].
  case_bool_decide; reflexivity.
Qed.

(** X25: with [include_keys] present and empty, [process_environment_tags]
    does not return: where it would return without a focus file it
    raises [IndexError], after the fetch and the regular report. *)
Theorem empty_include_keys_fail_every_environment env creds filters w :
  filters !! "include_keys" = Some [] →
  (∀ w', process_environment_tags env creds filters w ≠ Returns () w') ∧
  (∀ w1, process_environment_tags env creds ∅ w = Returns () w1 →
         process_environment_tags env creds filters w
           = Raises (Python IndexError) w1).
Proof.
  intros Hempty.
  assert (Hne : filters ≠ ∅).
  { intros ->. rewrite lookup_empty in Hempty. discriminate. }
  assert (Hstep : ∀ w0,
    fetch_and_report env creds filters w0 =
    match fetch_and_report env creds ∅ w0 with
    | Returns _ w1 => Raises (Python IndexError) w1
    | Raises e w1 => Raises e w1
    | Blocks w1 => Blocks w1
    end).
  { intros w0. rewrite fetch_and_report_unfold.
    destruct (fetch_and_report env creds ∅ w0); [|reflexivity..].
    rewrite bool_decide_true by assumption.
    unfold mbind, M_bind, first_include_key. rewrite Hempty. reflexivity. }
  split.
  - intros w' Hret.
    pose proof (exists_has_credentials _ _ _ _ _ Hret) as Hcreds.
    rewrite process_with_credentials, Hstep in Hret by assumption.
    destruct (fetch_and_report env creds ∅ _); discriminate.
  - intros w1 Hret.
    pose proof (exists_has_credentials _ _ _ _ _ Hret) as Hcreds.
    rewrite process_with_credentials in Hret |- * by assumption.
    rewrite Hstep, Hret. reflexivity.
Qed.

Lemma empty_include_keys_fail_every_environment_witness :
  process_environment_tags "prod" full_creds {[ "include_keys" := [] ]}
                           (one_page_world 1)
    = Raises (Python IndexError)
             (final (process_environment_tags "prod" full_creds ∅
                                              (one_page_world 1))).
Proof.
  destruct (empty_include_keys_fail_every_environment
              "prod" full_creds {[ "include_keys" := [] ]} (one_page_world 1))
    as [_ Hraises]; [reflexivity|].
  apply Hraises. reflexivity.
Defined.

(** X26: the focused report reads the first include key and the excluded
    values only: two non-empty rule sets that agree on these give the
    same run of [process_environment_tags], whatever else they hold. *)
Theorem focused_report_reads_first_key_only env creds filters filters' w :
  filters ≠ ∅ → filters' ≠ ∅ →
  head <$> filters !! "include_keys" = head <$> filters' !! "include_keys" →
  Filter.get filters "exclude_values" = Filter.get filters' "exclude_values" →
  process_environment_tags env creds filters w
    = process_environment_tags env creds filters' w.
Proof.
  intros Hne Hne' Hhead Hexcl.
  assert (Hkey : first_include_key filters = first_include_key filters').
  { unfold first_include_key.
    destruct (filters !! "include_keys") as [[|key keys]|],
             (filters' !! "include_keys") as [[|key' keys']|];
      simpl in Hhead; try discriminate; try reflexivity.
    injection Hhead as ->. reflexivity. }
  unfold process_environment_tags.
  rewrite !bool_decide_true by assumption. rewrite Hkey, Hexcl. reflexivity.
Qed.

Lemma focused_report_reads_first_key_only_witness :
  process_environment_tags "prod" full_creds
    {[ "include_keys" := ["Team"; "Env"] ]} (one_page_world 1)
  = process_environment_tags "prod" full_creds
      {[ "include_keys" := ["Team"]; "include_values" := ["prod"] ]}
      (one_page_world 1).
Proof.
  apply focused_report_reads_first_key_only;
    [compute_done|compute_done|reflexivity|reflexivity].
Defined.

Lemma main_loop_app pre post filters : ∀ tag_data w,
  main_loop (pre ++ post) filters tag_data w =
  match main_loop pre filters tag_data w with
  | Returns tag_data' w' => main_loop post filters tag_data' w'
  | Raises e w' => Raises e w'
  | Blocks w' => Blocks w'
  end.
Proof.
  induction pre as [|[env creds] pre IH]; intros tag_data w; [reflexivity|].
  rewrite <- app_comm_cons. cbn [main_loop]. unfold mbind, M_bind.
  destruct (process_environment_tags env creds filters w) as [[] w1| |];
    [|reflexivity..].
  destruct (fetch_resource_tags _ w1) as [tags w2| |]; [|reflexivity..].
  apply IH.
Qed.

(** X27: a failure in one environment ends the whole run: when the
    environments before it succeed and either its processing or the
    second fetch raises, [main] raises the same exception in the same
    state; no later environment is visited and no summary is written. *)
Theorem failure_stops_the_run pre env creds post filters w tag_data w1 e w2 :
  main_loop pre filters [] w = Returns tag_data w1 →
  (process_environment_tags env creds filters w1 = Raises e w2 ∨
   ∃ w', process_environment_tags env creds filters w1 = Returns () w' ∧
         fetch_resource_tags (default "eu-central-1" (creds !! "AWS_REGION")) w'
           = Raises e w2) →
  main (pre ++ (env, creds) :: post) filters w = Raises e w2.
Proof.
  intros Hpre Hfail. unfold main. apply bind_raises.
  rewrite main_loop_app, Hpre. simpl.
  destruct Hfail as [Hfail|(w' & Hproc & Hfail)].
  - apply bind_raises. exact Hfail.
  - erewrite bind_returns by exact Hproc. apply bind_raises. exact Hfail.
Qed.

Lemma failure_stops_the_run_witness :
  main ([("prod", full_creds)] ++ ("dev", partial_creds) :: [("qa", full_creds)])
       ∅ (one_page_world 6)
    = Raises (Python KeyError)
        (final (process_environment_tags "dev" partial_creds ∅
                  (final (main_loop [("prod", full_creds)] ∅ []
                                    (one_page_world 6))))).
Proof.
  apply (failure_stops_the_run
           [("prod", full_creds)] "dev" partial_creds [("qa", full_creds)]
           ∅ (one_page_world 6) [("prod", [r1; r2])]
           (final (main_loop [("prod", full_creds)] ∅ [] (one_page_world 6)))).
  - reflexivity.
  - left. reflexivity.
Defined.

Lemma run_finished_app region max_retries pre : ∀ st post,
  (∀ st', (Fetcher.run region max_retries st pre).2 ≠ Fetcher.Pending st') →
  Fetcher.run region max_retries st (pre ++ post)
    = Fetcher.run region max_retries st pre.
Proof.
  induction pre as [|result pre IH]; intros st post Hfin.
  - exfalso. apply (Hfin st). reflexivity.
  - rewrite <- app_comm_cons, !run_cons in *.
    destruct (Fetcher.loop_body max_retries st result) as [st1| |];
      try reflexivity.
    rewrite IH; [reflexivity|]. intros st'. apply Hfin.
Qed.

Lemma fetch_consumes_calls region calls tags more w :
  fetch_consumes region calls tags →
  upstream w = (calls ++ more)%list →
  ∃ w', fetch_resource_tags region w = Returns tags w' ∧
        environ w' = environ w ∧ files w' = files w ∧ upstream w' = more.
Proof.
  intros [Hret Hlen] Hup. unfold fetch_resource_tags. rewrite Hup.
  unfold Fetcher.fetch_resource_tags in *.
  rewrite run_finished_app by (intros st'; rewrite Hret; discriminate).
  rewrite Hret, Hlen. eexists. split; [reflexivity|]. simpl.
  rewrite drop_app_length. auto.
Qed.

Lemma dict_set_fresh {V} (d : list (string * V)) key value :
  key ∉ d.*1 → dict_set d key value = (d ++ [(key, value)])%list.
Proof.
  induction d as [|[k v] d IH]; intros Hfresh; [reflexivity|].
  simpl in *. apply not_elem_of_cons in Hfresh as [Hne Hfresh].
  rewrite decide_False by congruence. rewrite IH by assumption. reflexivity.
Qed.

Lemma visit_step v filters more w :
  filters = ∅ →
  visit_ok v →
  upstream w = ((first_calls v ++ second_calls v) ++ more)%list →
  ∃ w1 w2,
    process_environment_tags (visit_env v) (visit_creds v) filters w
      = Returns () w1 ∧
    fetch_resource_tags (visit_region v) w1 = Returns (second_tags v) w2 ∧
    files w2 = <[ visit_env v +:+ "_tags.csv" := regular_report v ]> (files w) ∧
    upstream w2 = more.
Proof.
  intros -> (Hcreds & Hfirst & Hsecond & Hwf) Hup.
  rewrite process_with_credentials by assumption.
  unfold fetch_and_report. rewrite (bool_decide_false (∅ ≠ ∅)) by auto.
  rewrite <- app_assoc in Hup.
  destruct (fetch_consumes_calls _ _ _ (second_calls v ++ more)
              (export_credentials (visit_creds v) w) Hfirst Hup)
    as (wa & Hfetch & Henv & Hfiles & Hupa).
  fold (visit_region v). erewrite bind_returns by exact Hfetch.
  unfold json_to_csv at 1.
  rewrite Projector_json_to_csv_full by (auto; reflexivity).
  unfold lift, write_file, mbind, M_bind, mret, M_ret. simpl.
  set (w1 := {| environ := environ wa;
                files := <[ visit_env v +:+ "_tags.csv" := regular_report v ]>
                           (files wa);
                upstream := upstream wa;
                issued := issued wa |}).
  destruct (fetch_consumes_calls _ _ _ more w1 Hsecond Hupa)
    as (wb & Hfetch2 & _ & Hfiles2 & Hupb).
  exists w1, wb. split; [reflexivity|]. split; [exact Hfetch2|].
  split; [|exact Hupb]. rewrite Hfiles2. simpl. rewrite Hfiles. reflexivity.
Qed.

Lemma list_ascii_of_append s t :
  String.list_ascii_of_string (s +:+ t)
    = (String.list_ascii_of_string s ++ String.list_ascii_of_string t)%list.
Proof. induction s as [|c s IH]; simpl; [|rewrite IH]; reflexivity. Qed.

Lemma append_inj_r s1 s2 t : s1 +:+ t = s2 +:+ t → s1 = s2.
Proof.
  intros H. apply (f_equal String.list_ascii_of_string) in H.
  rewrite !list_ascii_of_append in H. apply app_inv_tail in H.
  rewrite <- (String.string_of_list_ascii_of_string s1),
          <- (String.string_of_list_ascii_of_string s2), H. reflexivity.
Qed.

Lemma main_loop_visits visits rest : ∀ tag_data w,
  Forall visit_ok visits →
  NoDup (tag_data.*1 ++ (visit_env <$> visits)) →
  upstream w = (concat (visit_calls <$> visits) ++ rest)%list →
  ∃ w',
    main_loop (visit_credentials visits) ∅ tag_data w
      = Returns (tag_data ++ visit_data visits)%list w' ∧
    upstream w' = rest ∧
    files w' = foldl (λ fs v, <[ visit_env v +:+ "_tags.csv" := regular_report v ]> fs)
                     (files w) visits.
Proof.
  induction visits as [|v visits IH]; intros tag_data w Hok Hnd Hup.
  - exists w. simpl in *. rewrite app_nil_r. auto.
  - inversion Hok as [|? ? Hv Hok']; subst.
    rewrite fmap_cons, concat_cons, <- app_assoc in Hup.
    destruct (visit_step v ∅ (concat (visit_calls <$> visits) ++ rest) w
                eq_refl Hv) as (w1 & w2 & Hproc & Hfetch & Hfiles & Hup2).
    { unfold visit_calls in Hup. rewrite Hup, <- !app_assoc. reflexivity. }
    rewrite fmap_cons in Hnd.
    assert (Hfresh : visit_env v ∉ tag_data.*1).
    { apply NoDup_app in Hnd as (_ & Hdisj & _). intros Hin.
      apply (Hdisj _ Hin). left. }
    destruct (IH (tag_data ++ [(visit_env v, second_tags v)])%list w2 Hok')
      as (w' & Hloop & Hup' & Hfiles').
    { rewrite fmap_app. simpl. rewrite <- app_assoc. simpl.
      exact Hnd. }
    { exact Hup2. }
    exists w'. split; [|split; [exact Hup'|]].
    + unfold visit_credentials. rewrite fmap_cons. cbn [main_loop].
      erewrite bind_returns by exact Hproc.
      fold (visit_region v). erewrite bind_returns by exact Hfetch.
      rewrite dict_set_fresh by assumption.
      fold (visit_credentials visits). rewrite Hloop.
      unfold visit_data. rewrite fmap_cons, <- app_assoc. reflexivity.
    + rewrite Hfiles', Hfiles. reflexivity.
Qed.

Lemma lookup_reports (visits : list Visit) : ∀ (fs : gmap string File) name,
  foldl (λ fs v, <[ visit_env v +:+ "_tags.csv" := regular_report v ]> fs)
        fs visits !! name =
  match last (filter (λ v, visit_env v +:+ "_tags.csv" = name) visits) with
  | Some v => Some (regular_report v)
  | None => fs !! name
  end.
Proof.
  induction visits as [|v visits IH]; intros fs name; [reflexivity|].
  simpl. rewrite IH, filter_cons.
  destruct (decide (visit_env v +:+ "_tags.csv" = name)) as [Heq|Hne].
  - rewrite last_cons.
    destruct (last (filter _ visits)); [reflexivity|].
    rewrite Heq. apply lookup_insert_eq.
  - destruct (last (filter _ visits)); [reflexivity|].
    apply lookup_insert_ne. assumption.
Qed.

Lemma NoDup_fmap_eq {A B} (f : A → B) (l : list A) x y :
  NoDup (f <$> l) → x ∈ l → y ∈ l → f x = f y → x = y.
Proof.
  induction l as [|a l IH]; intros Hnd Hx Hy Hf; [inversion Hx|].
  rewrite fmap_cons in Hnd. apply NoDup_cons in Hnd as [Hfresh Hnd].
  apply elem_of_cons in Hx as [->|Hx]; apply elem_of_cons in Hy as [->|Hy].
  - reflexivity.
  - exfalso. apply Hfresh. rewrite Hf. apply list_elem_of_fmap. eauto.
  - exfalso. apply Hfresh. rewrite <- Hf. apply list_elem_of_fmap. eauto.
  - apply IH; assumption.
Qed.

Lemma lookup_report_of_visit visits v (fs : gmap string File) :
  NoDup (visit_env <$> visits) → v ∈ visits →
  foldl (λ fs v, <[ visit_env v +:+ "_tags.csv" := regular_report v ]> fs)
        fs visits !! (visit_env v +:+ "_tags.csv")
    = Some (regular_report v).
Proof.
  intros Hnd Hin. rewrite lookup_reports.
  destruct (last (filter _ visits)) as [v'|] eqn:Hlast.
  - apply last_Some_elem_of, list_elem_of_filter in Hlast as [Hname Hin'].
    apply append_inj_r in Hname.
    rewrite (NoDup_fmap_eq visit_env visits v' v); auto.
  - apply last_None in Hlast.
    assert (Hv : v ∈ filter (λ v', visit_env v' +:+ "_tags.csv"
                                   = visit_env v +:+ "_tags.csv") visits)
      by (apply list_elem_of_filter; auto).
    rewrite Hlast in Hv. inversion Hv.
Qed.

Lemma lookup_summary_not_column tag_data column :
  ¬ Aggregator.is_column (Aggregator.env_names tag_data) column →
  Aggregator.generate_summary_csv tag_data !! column = None.
Proof.
  intros Hcol. unfold Aggregator.generate_summary_csv.
  apply (foldl_preserves (λ d : gmap string (list Aggregator.Cell), d !! column = None)).
  - intros d [tag envs] Hd. unfold Aggregator.summary_step.
    rewrite lookup_append.
    assert (Hmarks :
      foldl (λ d env, Aggregator.append d env (Aggregator.presence envs env))
            (Aggregator.append d "Tag Key" (Aggregator.Text tag))
            (Aggregator.env_names tag_data) !! column = None).
    { apply (foldl_preserves
               (λ d : gmap string (list Aggregator.Cell), d !! column = None)).
      - intros d' env Hd'. rewrite lookup_append, Hd'.
        destruct (decide (env = column)); reflexivity.
      - rewrite lookup_append, Hd.
        destruct (decide ("Tag Key" = column)); reflexivity. }
    rewrite Hmarks. destruct (decide ("Possible Values" = column)); reflexivity.
  - unfold Aggregator.empty_summary, Aggregator.is_column in *.
    rewrite lookup_insert_ne by (intros <-; apply Hcol; auto).
    rewrite lookup_empty_fold.
    destruct (decide (column ∈ Aggregator.env_names tag_data)); [tauto|].
    apply lookup_singleton_ne. intros <-. apply Hcol. auto.
Qed.

Lemma data_frame_rectangular tag_data w :
  NoDup (Aggregator.env_names tag_data) →
  "Tag Key" ∉ Aggregator.env_names tag_data →
  "Possible Values" ∉ Aggregator.env_names tag_data →
  data_frame (Aggregator.generate_summary_csv tag_data) w
    = Returns (Aggregator.generate_summary_csv tag_data) w.
Proof.
  intros Hnd Htk Hpv.
  assert (Hlen : ∀ column entries,
            Aggregator.generate_summary_csv tag_data !! column = Some entries →
            length entries
              = length (map_to_list (Aggregator.collect tag_data))).
  { intros column entries Hc.
    destruct (decide (Aggregator.is_column (Aggregator.env_names tag_data) column))
      as [Hcol|Hcol].
    - rewrite lookup_generate_summary_csv in Hc by assumption.
      injection Hc as <-. apply length_fmap.
    - rewrite lookup_summary_not_column in Hc by assumption. discriminate. }
  unfold data_frame.
  destruct ((map_to_list (Aggregator.generate_summary_csv tag_data)).*2)
    as [|entries others] eqn:Hcols; [reflexivity|].
  rewrite bool_decide_true; [reflexivity|].
  assert (Hall : ∀ x, x ∈ entries :: others →
            length x = length (map_to_list (Aggregator.collect tag_data))).
  { intros x Hx. rewrite <- Hcols in Hx.
    apply list_elem_of_fmap in Hx as ([column x'] & -> & Hx).
    apply elem_of_map_to_list in Hx. eapply Hlen. exact Hx. }
  apply Forall_forall. intros x Hx.
  rewrite (Hall x) by (right; exact Hx). symmetry. apply Hall. left.
Qed.

(** X28: a run without a focus file over environments whose fetches
    succeed: every environment is fetched twice, the CLI answers being
    consumed in order, first those of the fetch for the report, then
    those of the fetch in [main]; the report of an environment shows the
    first fetch, the summary is computed from the second ones. *)
Theorem successful_run_fetches_every_environment_twice visits rest w :
  Forall visit_ok visits →
  NoDup (visit_env <$> visits) →
  "Tag Key" ∉ visit_env <$> visits →
  "Possible Values" ∉ visit_env <$> visits →
  upstream w = (concat (visit_calls <$> visits) ++ rest)%list →
  ∃ w',
    main (visit_credentials visits) ∅ w = Returns () w' ∧
    upstream w' = rest ∧
    files w' !! "summary_tags.csv"
      = Some (SummaryCsv (Aggregator.generate_summary_csv (visit_data visits))) ∧
    ∀ v, v ∈ visits → visit_env v ≠ "summary" →
         files w' !! (visit_env v +:+ "_tags.csv") = Some (regular_report v).
Proof.
  intros Hok Hnd Htk Hpv Hup.
  destruct (main_loop_visits visits rest [] w Hok) as (w1 & Hloop & Hup1 & Hfiles);
    [exact Hnd|exact Hup|].
  assert (Hnames : Aggregator.env_names (visit_data visits) = visit_env <$> visits).
  { unfold Aggregator.env_names, visit_data. rewrite <- list_fmap_compose.
    reflexivity. }
  eexists. split; [|split; [|split]].
  - unfold main. erewrite bind_returns by exact Hloop. simpl.
    erewrite bind_returns
      by (apply data_frame_rectangular; rewrite Hnames; assumption).
    rewrite (bool_decide_false (∅ ≠ ∅)) by auto. reflexivity.
  - exact Hup1.
  - simpl. apply lookup_insert_eq.
  - intros v Hv Hname. simpl.
    rewrite lookup_insert_ne.
    + rewrite Hfiles. apply lookup_report_of_visit; assumption.
    + intros Heq. apply Hname. symmetry.
      apply (append_inj_r _ _ "_tags.csv"). exact Heq.
Qed.

Lemma successful_run_fetches_every_environment_twice_witness :
  ∃ w',
    main (visit_credentials [prod_visit; dev_visit]) ∅
         {| environ := ∅; files := ∅;
            upstream := (concat (visit_calls <$> [prod_visit; dev_visit])
                           ++ [Fetcher.CallFailed])%list;
            issued := [] |}
      = Returns () w' ∧
    upstream w' = [Fetcher.CallFailed] ∧
    files w' !! "summary_tags.csv"
      = Some (SummaryCsv (Aggregator.generate_summary_csv
                            (visit_data [prod_visit; dev_visit]))) ∧
    ∀ v, v ∈ [prod_visit; dev_visit] → visit_env v ≠ "summary" →
         files w' !! (visit_env v +:+ "_tags.csv") = Some (regular_report v).
Proof.
  apply (successful_run_fetches_every_environment_twice
           [prod_visit; dev_visit] [Fetcher.CallFailed]).
  - repeat constructor; compute_done.
  - compute_done.
  - compute_done.
  - compute_done.
  - reflexivity.
Defined.

End orchestrator_facts.
